(** * The CSS selector builder of [05-objects-tasks.js]

    A shallow embedding of the class [CSSSelector] and of the facade object
    [cssSelectorBuilder].  Selector instances are JavaScript objects: they are
    mutated in place, every fluent method returns [this], and [combineWith]
    stores a reference to its argument.  The embedding therefore keeps the
    objects in a store indexed by references and runs every method in a
    state-and-exception monad over that store, so that aliasing and the state
    left behind by a [throw] are both visible.

    Arguments of the methods are strings, as in the task description and its
    examples.  [stringify] calls itself through the stored references and
    need not return; its embedding takes the allowed depth of nested calls as
    an extra argument and reports when that depth is exceeded. *)

From stdpp Require Import gmap strings list fin_maps relations sorting.

Open Scope string_scope.

(** ** Strings *)

(** [if (s)] on a JavaScript string: only the empty string is falsy. *)
Definition truthy (s : string) : bool :=
  match s with
  | EmptyString => false
  | String _ _ => true
  end.

(** ** The store of objects *)

(** A reference to a selector object. *)
Definition loc := nat.

(** The fields of a [CSSSelector] object, in the order the constructor
    declares them. *)
Record Selector := mkSelector {
    classes : list string;
    attributes : list string;
    pseudoClasses : list string;
    combined : list (string * loc);
    tag : string;
    idValue : string;
    pseudoElementValue : string
  }.

(** [constructor()] *)
Definition constructor : Selector :=
  {| classes := []; attributes := []; pseudoClasses := []; combined := [];
     tag := ""; idValue := ""; pseudoElementValue := "" |}.

(** Field assignments [this.f = v]. *)
Definition set_classes (v : list string) (o : Selector) : Selector :=
  {| classes := v; attributes := attributes o;
     pseudoClasses := pseudoClasses o; combined := combined o;
     tag := tag o; idValue := idValue o;
     pseudoElementValue := pseudoElementValue o |}.

Definition set_attributes (v : list string) (o : Selector) : Selector :=
  {| classes := classes o; attributes := v;
     pseudoClasses := pseudoClasses o; combined := combined o;
     tag := tag o; idValue := idValue o;
     pseudoElementValue := pseudoElementValue o |}.

Definition set_pseudoClasses (v : list string) (o : Selector) : Selector :=
  {| classes := classes o; attributes := attributes o;
     pseudoClasses := v; combined := combined o;
     tag := tag o; idValue := idValue o;
     pseudoElementValue := pseudoElementValue o |}.

Definition set_combined (v : list (string * loc)) (o : Selector) : Selector :=
  {| classes := classes o; attributes := attributes o;
     pseudoClasses := pseudoClasses o; combined := v;
     tag := tag o; idValue := idValue o;
     pseudoElementValue := pseudoElementValue o |}.

Definition set_tag (v : string) (o : Selector) : Selector :=
  {| classes := classes o; attributes := attributes o;
     pseudoClasses := pseudoClasses o; combined := combined o;
     tag := v; idValue := idValue o;
     pseudoElementValue := pseudoElementValue o |}.

Definition set_idValue (v : string) (o : Selector) : Selector :=
  {| classes := classes o; attributes := attributes o;
     pseudoClasses := pseudoClasses o; combined := combined o;
     tag := tag o; idValue := v;
     pseudoElementValue := pseudoElementValue o |}.

Definition set_pseudoElementValue (v : string) (o : Selector) : Selector :=
  {| classes := classes o; attributes := attributes o;
     pseudoClasses := pseudoClasses o; combined := combined o;
     tag := tag o; idValue := idValue o;
     pseudoElementValue := v |}.

Abbreviation heap := (gmap loc Selector).

(** ** Computations over the store *)

(** How a call ends: it returns, it throws an [Error] with a message, or the
    recursion budget of the model is used up (the call is still running). *)
Inductive outcome (A : Type) : Type :=
  | Return (a : A)
  | Throw (msg : string)
  | OutOfFuel.
Arguments Return {A} a.
Arguments Throw {A} msg.
Arguments OutOfFuel {A}.

(** The store is threaded through every outcome: a [throw] does not undo the
    assignments made before it. *)
Definition M (A : Type) : Type := heap → outcome A * heap.

Definition ret {A} (a : A) : M A := λ h, (Return a, h).

Definition throw {A} (msg : string) : M A := λ h, (Throw msg, h).

Definition bind {A B} (m : M A) (k : A → M B) : M B :=
  λ h, match m h with
       | (Return a, h') => k a h'
       | (Throw msg, h') => (Throw msg, h')
       | (OutOfFuel, h') => (OutOfFuel, h')
       end.

Notation "'let!' x ':=' m 'in' k" := (bind m (λ x, k))
  (at level 10, x pattern, m at level 100, k at level 200,
   format "'[v' 'let!'  x  ':='  m  'in' '/' k ']'").

(** What the engine raises when a property of a non-object is accessed. *)
Definition TypeError : string := "TypeError: Cannot read properties of undefined".

(** [this.field] *)
Definition get {A} (this : loc) (field : Selector → A) : M A :=
  λ h, match h !! this with
       | Some o => (Return (field o), h)
       | None => (Throw TypeError, h)
       end.

(** [this.field = v], and likewise [this.field.push(v)], as an update of the
    object [this] refers to. *)
Definition set (this : loc) (upd : Selector → Selector) : M unit :=
  λ h, match h !! this with
       | Some o => (Return (), <[this := upd o]> h)
       | None => (Throw TypeError, h)
       end.

(** [new CSSSelector()]: a reference no live object has. *)
Definition new_CSSSelector : M loc :=
  λ h, let this := fresh (dom h) in
       (Return this, <[this := constructor]> h).

(** [arr.forEach(callback)] where the callback updates one captured local
    variable, passed here as the accumulator. *)
Fixpoint forEach {A S} (arr : list A) (callback : A → S → M S) (acc : S) : M S :=
  match arr with
  | [] => ret acc
  | x :: rest => let! acc := callback x acc in forEach rest callback acc
  end.

(** ** The two error messages *)

Definition msg_once : string :=
  "Element, id and pseudo-element should not occur more then one time inside the selector".

Definition msg_order : string :=
  "Selector parts should be arranged in the following order: element, id, class, attribute, pseudo-class, pseudo-element".

(** [arr.length > 0] *)
Definition nonempty {A} (arr : list A) : bool := (0 <? length arr)%nat.

(** ** The methods of [class CSSSelector] *)

Module CSSSelector.

Definition element (this : loc) (value : string) : M loc :=
  let! tag_ := get this tag in
  if truthy tag_ then throw msg_once else
  let! idValue_ := get this idValue in
  let! pseudoElementValue_ := get this pseudoElementValue in
  let! classes_ := get this classes in
  let! pseudoClasses_ := get this pseudoClasses in
  let! attributes_ := get this attributes in
  if truthy idValue_ || truthy pseudoElementValue_ || nonempty classes_
     || nonempty pseudoClasses_ || nonempty attributes_
  then throw msg_order else
  let! _ := set this (set_tag value) in
  ret this.

Definition id (this : loc) (value : string) : M loc :=
  let! idValue_ := get this idValue in
  if truthy idValue_ then throw msg_once else
  let! pseudoElementValue_ := get this pseudoElementValue in
  let! classes_ := get this classes in
  let! pseudoClasses_ := get this pseudoClasses in
  let! attributes_ := get this attributes in
  if truthy pseudoElementValue_ || nonempty classes_
     || nonempty pseudoClasses_ || nonempty attributes_
  then throw msg_order else
  let! _ := set this (set_idValue ("#" +:+ value)) in
  ret this.

Definition pseudoElement (this : loc) (value : string) : M loc :=
  let! pseudoElementValue_ := get this pseudoElementValue in
  if truthy pseudoElementValue_ then throw msg_once else
  let! _ := set this (set_pseudoElementValue ("::" +:+ value)) in
  ret this.

Definition class (this : loc) (className : string) : M loc :=
  let! pseudoElementValue_ := get this pseudoElementValue in
  let! attributes_ := get this attributes in
  let! pseudoClasses_ := get this pseudoClasses in
  if truthy pseudoElementValue_ || nonempty attributes_
     || nonempty pseudoClasses_
  then throw msg_order else
  let! _ := set this (λ o, set_classes (classes o ++ ["." +:+ className]) o) in
  ret this.

Definition pseudoClass (this : loc) (name : string) : M loc :=
  let! pseudoElementValue_ := get this pseudoElementValue in
  if truthy pseudoElementValue_ then throw msg_order else
  let! _ := set this (λ o, set_pseudoClasses (pseudoClasses o ++ [":" +:+ name]) o) in
  ret this.

Definition attr (this : loc) (attr : string) : M loc :=
  let! pseudoElementValue_ := get this pseudoElementValue in
  let! pseudoClasses_ := get this pseudoClasses in
  if truthy pseudoElementValue_ || nonempty pseudoClasses_
  then throw msg_order else
  let! _ := set this (λ o, set_attributes (attributes o ++ ["[" +:+ attr +:+ "]"]) o) in
  ret this.

Definition combineWith (this : loc) (combinator : string) (selector : loc) : M loc :=
  let! _ := set this (λ o, set_combined (combined o ++ [(combinator, selector)]) o) in
  ret this.

(** [stringify()] calls itself on every combined selector; [fuel] bounds the
    depth of these nested calls. *)
Fixpoint stringify (fuel : nat) (this : loc) : M string :=
  match fuel with
  | O => λ h, (OutOfFuel, h)
  | S fuel =>
    let! tag_ := get this tag in
    let! idValue_ := get this idValue in
    let result := tag_ +:+ idValue_ in
    let! classes_ := get this classes in
    let! result :=
      forEach classes_ (λ className result, ret (result +:+ className)) result in
    let! attributes_ := get this attributes in
    let! result :=
      forEach attributes_ (λ attribute result, ret (result +:+ attribute)) result in
    let! pseudoClasses_ := get this pseudoClasses in
    let! result :=
      forEach pseudoClasses_ (λ pseudoClass result, ret (result +:+ pseudoClass)) result in
    let! combined_ := get this combined in
    let! result :=
      forEach combined_
        (λ selector result,
           let! s := stringify fuel (selector.2) in
           ret (result +:+ " " +:+ selector.1 +:+ " " +:+ s))
        result in
    let! pseudoElementValue_ := get this pseudoElementValue in
    ret (result +:+ pseudoElementValue_)
  end.

End CSSSelector.

(** ** The facade [cssSelectorBuilder] *)

Module cssSelectorBuilder.

Definition stringValue : string := "".

Definition element (value : string) : M loc :=
  let! selector := new_CSSSelector in
  let! _ := CSSSelector.element selector value in
  ret selector.

Definition id (value : string) : M loc :=
  let! selector := new_CSSSelector in
  let! _ := CSSSelector.id selector value in
  ret selector.

Definition class (value : string) : M loc :=
  let! selector := new_CSSSelector in
  let! _ := CSSSelector.class selector value in
  ret selector.

Definition attr (value : string) : M loc :=
  let! selector := new_CSSSelector in
  let! _ := CSSSelector.attr selector value in
  ret selector.

Definition pseudoClass (value : string) : M loc :=
  let! selector := new_CSSSelector in
  let! _ := CSSSelector.pseudoClass selector value in
  ret selector.

Definition pseudoElement (value : string) : M loc :=
  let! selector := new_CSSSelector in
  let! _ := CSSSelector.pseudoElement selector value in
  ret selector.

Definition combine (selector1 : loc) (combinator : string) (selector2 : loc) : M loc :=
  let! _ := CSSSelector.combineWith selector1 combinator selector2 in
  ret selector1.

End cssSelectorBuilder.

(** ** Vocabulary of the specification *)

(** [arr.join('')] *)
Definition join (arr : list string) : string := foldr String.append "" arr.

(** A selector's own fragments except the pseudo-element, in output order. *)
Definition own_fragments (o : Selector) : string :=
  tag o +:+ idValue o +:+ join (classes o) +:+ join (attributes o)
  +:+ join (pseudoClasses o).

(** The text one combined entry contributes, given the text of its operand. *)
Definition segment (combinator operand : string) : string :=
  " " +:+ combinator +:+ " " +:+ operand.

(** [seg] is what the entry [e] contributes when its operand is stringified
    in store [h] with nesting budget [fuel]. *)
Definition rendered (fuel : nat) (h : heap) (e : string * loc) (seg : string) : Prop :=
  ∃ s, CSSSelector.stringify fuel e.2 h = (Return s, h) ∧ seg = segment e.1 s.

(** The reference graph: [a] holds a combined entry whose operand is [b]. *)
Definition refers (h : heap) (a b : loc) : Prop :=
  ∃ o c, h !! a = Some o ∧ (c, b) ∈ combined o.

(** Every stored reference points to a live object. *)
Definition closed (h : heap) : Prop :=
  ∀ a b, refers h a b → is_Some (h !! b).

(** No object reachable from [this] lies on a cycle of references. *)
Definition acyclic_from (h : heap) (this : loc) : Prop :=
  ∀ x, rtc (refers h) this x → ¬ tc (refers h) x x.

(** A computation that leaves the store as it found it. *)
Definition readonly {A} (m : M A) : Prop := ∀ h, (m h).2 = h.

(** The callback of the loop over [this.combined]. *)
Definition combined_callback (fuel : nat) (selector : string * loc) (result : string) : M string :=
  let! s := CSSSelector.stringify fuel (selector.2) in
  ret (result +:+ " " +:+ selector.1 +:+ " " +:+ s).

(** The six kinds of fragment, in the canonical order. *)
Inductive kind : Type :=
  | Element | Id | Class | Attribute | PseudoClass | PseudoElement.

Definition rank (k : kind) : nat :=
  match k with
  | Element => 0 | Id => 1 | Class => 2
  | Attribute => 3 | PseudoClass => 4 | PseudoElement => 5
  end.

(** The method that adds a fragment of the given kind. *)
Definition add (k : kind) : loc → string → M loc :=
  match k with
  | Element => CSSSelector.element
  | Id => CSSSelector.id
  | Class => CSSSelector.class
  | Attribute => CSSSelector.attr
  | PseudoClass => CSSSelector.pseudoClass
  | PseudoElement => CSSSelector.pseudoElement
  end.

(** The assignment that method performs when it raises nothing. *)
Definition store (k : kind) (v : string) (o : Selector) : Selector :=
  match k with
  | Element => set_tag v o
  | Id => set_idValue ("#" +:+ v) o
  | Class => set_classes (classes o ++ ["." +:+ v]) o
  | Attribute => set_attributes (attributes o ++ ["[" +:+ v +:+ "]"]) o
  | PseudoClass => set_pseudoClasses (pseudoClasses o ++ [":" +:+ v]) o
  | PseudoElement => set_pseudoElementValue ("::" +:+ v) o
  end.

(** A kind is present on an instance when the guards of the methods see it:
    a truthy string or a non-empty array. *)
Definition present (o : Selector) (k : kind) : bool :=
  match k with
  | Element => truthy (tag o)
  | Id => truthy (idValue o)
  | Class => nonempty (classes o)
  | Attribute => nonempty (attributes o)
  | PseudoClass => nonempty (pseudoClasses o)
  | PseudoElement => truthy (pseudoElementValue o)
  end.

(** The latest kind, in the canonical order, present on an instance. *)
Definition most_specific (o : Selector) : option kind :=
  List.find (present o) [PseudoElement; PseudoClass; Attribute; Class; Id; Element].

(** [k] comes strictly before the most specific kind present on [o]. *)
Definition strictly_earlier (k : kind) (o : Selector) : bool :=
  match most_specific o with
  | Some k' => (rank k <? rank k')%nat
  | None => false
  end.

(** Element, id and pseudo-element are the kinds that occur at most once. *)
Definition singleton (k : kind) : bool :=
  match k with
  | Element | Id | PseudoElement => true
  | Class | Attribute | PseudoClass => false
  end.

(** Every reference stored in [h] points to a live object created later
    than its holder: the shape of a store built by nested builder calls. *)
Definition forward (h : heap) : bool :=
  bool_decide
    (map_Forall
       (λ (a : loc) (o : Selector),
          Forall (λ e : string * loc, (a < e.2)%nat ∧ is_Some (h !! e.2)) (combined o))
       h).

(** The facade entry point that creates a selector from one fragment. *)
Definition facade (k : kind) : string → M loc :=
  match k with
  | Element => cssSelectorBuilder.element
  | Id => cssSelectorBuilder.id
  | Class => cssSelectorBuilder.class
  | Attribute => cssSelectorBuilder.attr
  | PseudoClass => cssSelectorBuilder.pseudoClass
  | PseudoElement => cssSelectorBuilder.pseudoElement
  end.

(** ** The examples of the task description, run on the empty store *)

Definition run {A} (m : M A) : outcome A := (m ∅).1.

Definition example1 : M string :=
  let! s := cssSelectorBuilder.id "main" in
  let! s := CSSSelector.class s "container" in
  let! s := CSSSelector.class s "editable" in
  CSSSelector.stringify 1 s.

(** The double-quote character of [href$=".png"]. *)
Definition dquote : string := String (Ascii.ascii_of_nat 34) "".

Definition example2 : M string :=
  let! s := cssSelectorBuilder.element "a" in
  let! s := CSSSelector.attr s ("href$=" +:+ dquote +:+ ".png" +:+ dquote) in
  let! s := CSSSelector.pseudoClass s "focus" in
  CSSSelector.stringify 1 s.

(** The nested combination of the description, up to the call of
    [stringify]. *)
Definition nested : M loc :=
  let! div := cssSelectorBuilder.element "div" in
  let! div := CSSSelector.id div "main" in
  let! div := CSSSelector.class div "container" in
  let! div := CSSSelector.class div "draggable" in
  let! table := cssSelectorBuilder.element "table" in
  let! table := CSSSelector.id table "data" in
  let! tr := cssSelectorBuilder.element "tr" in
  let! tr := CSSSelector.pseudoClass tr "nth-of-type(even)" in
  let! td := cssSelectorBuilder.element "td" in
  let! td := CSSSelector.pseudoClass td "nth-of-type(even)" in
  let! inner := cssSelectorBuilder.combine tr " " td in
  let! middle := cssSelectorBuilder.combine table "~" inner in
  cssSelectorBuilder.combine div "+" middle.

Definition example3 : M string :=
  let! outer := nested in
  CSSSelector.stringify 4 outer.

(** The store [nested] leaves behind, and the object its result refers to. *)
Definition nested_heap : heap := (nested ∅).2.

Definition nested_div : Selector :=
  {| classes := [".container"; ".draggable"]; attributes := [];
     pseudoClasses := []; combined := [("+", 1)];
     tag := "div"; idValue := "#main"; pseudoElementValue := "" |}.

(** [element('a').id('x')] *)
Definition a_x : Selector := store Id "x" (store Element "a" constructor).



(** [combine(element('a'), '>', element('b'))], and then a class added to
    the right operand. *)
Definition a_child_b : M loc :=
  let! a := cssSelectorBuilder.element "a" in
  let! b := cssSelectorBuilder.element "b" in
  cssSelectorBuilder.combine a ">" b.

Definition a_child_b_heap : heap := (a_child_b ∅).2.

(** A selector combined with itself. *)
Definition self_combined : M loc :=
  let! a := cssSelectorBuilder.element "a" in
  cssSelectorBuilder.combine a "+" a.

Definition self_combined_heap : heap := (self_combined ∅).2.



(** ** Fluent chains *)

#[global] Instance kind_eq_dec : EqDecision kind.
Proof. solve_decision. Defined.

Definition kinds : list kind :=
  [Element; Id; Class; Attribute; PseudoClass; PseudoElement].

(** The text a fragment-adding call puts into the output. *)
Definition fragment (call : kind * string) : string :=
  match call.1 with
  | Element => call.2
  | Id => "#" +:+ call.2
  | Class => "." +:+ call.2
  | Attribute => "[" +:+ call.2 +:+ "]"
  | PseudoClass => ":" +:+ call.2
  | PseudoElement => "::" +:+ call.2
  end.

(** [this.m1(v1).m2(v2)...]: every method is called on what the previous
    one returned, and a [throw] ends the chain. *)
Fixpoint chain (this : loc) (calls : list (kind * string)) : M loc :=
  match calls with
  | [] => ret this
  | (k, v) :: rest => let! this := add k this v in chain this rest
  end.

(** [cssSelectorBuilder.m(v).m1(v1).m2(v2)...] *)
Definition fluent (k : kind) (v : string) (rest : list (kind * string)) : M loc :=
  let! selector := facade k v in chain selector rest.

(** The successive states of an object on which the calls all return. *)
Definition stores (o : Selector) (calls : list (kind * string)) : Selector :=
  foldl (λ o call, store call.1 call.2 o) o calls.

(** Neither guard of the method of kind [k] fires on [o]: every kind present
    comes before [k], or is [k] itself when [k] may occur several times. *)
Definition admits (o : Selector) (k : kind) : bool :=
  forallb
    (λ k', negb (present o k') || (rank k' <? rank k)%nat
           || (bool_decide (k' = k) && negb (singleton k)))
    kinds.

(** A call after which the same method may be called again: the methods of
    the kinds that are not singletons, and [element] with the empty name. *)
Definition repeatable (call : kind * string) : bool :=
  negb (singleton call.1)
  || (bool_decide (call.1 = Element) && negb (truthy call.2)).

(** The call [b] may come, at any distance, after the call [a]. *)
Definition followsb (a b : kind * string) : bool :=
  (rank a.1 <? rank b.1)%nat || (bool_decide (a.1 = b.1) && repeatable a).

Definition follows (a b : kind * string) : Prop := followsb a b = true.

#[global] Instance follows_dec : RelDecision follows.
Proof. intros a b. unfold follows. apply _. Defined.

(** Two computations are accepted together, and then agree. *)
Definition same_when_returning {A} (r1 r2 : outcome A * heap) : Prop :=
  ((∃ a, r1.1 = Return a) ↔ (∃ a, r2.1 = Return a)) ∧
  ((∃ a, r1.1 = Return a) → r1 = r2).

(** ** Strings and the monad *)

Lemma append_assoc (a b c : string) : (a +:+ b) +:+ c = a +:+ b +:+ c.
Proof.
  induction a as [|ch a IH]; [reflexivity|].
  change (String ch ((a +:+ b) +:+ c) = String ch (a +:+ b +:+ c)).
  by rewrite IH.
Qed.

Lemma append_nil_r (a : string) : a +:+ "" = a.
Proof.
  induction a as [|ch a IH]; [reflexivity|].
  change (String ch (a +:+ "") = String ch a). by rewrite IH.
Qed.

Lemma join_cons (x : string) (arr : list string) : join (x :: arr) = x +:+ join arr.
Proof. reflexivity. Qed.

Lemma join_app (l1 l2 : list string) : join (l1 ++ l2) = join l1 +:+ join l2.
Proof.
  induction l1 as [|x l1 IH]; [reflexivity|].
  change (join (x :: l1 ++ l2) = join (x :: l1) +:+ join l2).
  by rewrite !join_cons, IH, append_assoc.
Qed.

Lemma get_Some {A} (this : loc) (field : Selector → A) (h : heap) (o : Selector) :
  h !! this = Some o → get this field h = (Return (field o), h).
Proof. intros Ho. unfold get. by rewrite Ho. Qed.

Lemma get_None {A} (this : loc) (field : Selector → A) (h : heap) :
  h !! this = None → get this field h = (Throw TypeError, h).
Proof. intros Ho. unfold get. by rewrite Ho. Qed.

Lemma set_Some (this : loc) (upd : Selector → Selector) (h : heap) (o : Selector) :
  h !! this = Some o → set this upd h = (Return (), <[this := upd o]> h).
Proof. intros Ho. unfold set. by rewrite Ho. Qed.

Lemma bind_Return {A B} (m : M A) (k : A → M B) (h h' : heap) (a : A) :
  m h = (Return a, h') → bind m k h = k a h'.
Proof. intros Hm. unfold bind. by rewrite Hm. Qed.

Lemma bind_Throw {A B} (m : M A) (k : A → M B) (h h' : heap) (msg : string) :
  m h = (Throw msg, h') → bind m k h = (Throw msg, h').
Proof. intros Hm. unfold bind. by rewrite Hm. Qed.

Lemma bind_OutOfFuel {A B} (m : M A) (k : A → M B) (h h' : heap) :
  m h = (OutOfFuel, h') → bind m k h = (OutOfFuel, h').
Proof. intros Hm. unfold bind. by rewrite Hm. Qed.

Lemma readonly_ret {A} (a : A) : readonly (ret a).
Proof. by intros h. Qed.

Lemma readonly_get {A} (this : loc) (field : Selector → A) : readonly (get this field).
Proof. intros h. unfold get. by destruct (h !! this). Qed.

Lemma readonly_bind {A B} (m : M A) (k : A → M B) :
  readonly m → (∀ a, readonly (k a)) → readonly (bind m k).
Proof.
  intros Hm Hk h. unfold bind. specialize (Hm h).
  destruct (m h) as [[a| |] h']; simpl in Hm; subst h'; [apply Hk|done..].
Qed.

Lemma readonly_forEach {A S} (arr : list A) (callback : A → S → M S) (acc : S) :
  (∀ x r, readonly (callback x r)) → readonly (forEach arr callback acc).
Proof.
  intros Hcb. revert acc.
  induction arr as [|x arr IH]; intros acc; simpl.
  - apply readonly_ret.
  - apply readonly_bind; [apply Hcb | intros r; apply IH].
Qed.

(** Appending every element of an array to a local string. *)
Lemma forEach_append (arr : list string) (acc : string) (h : heap) :
  forEach arr (λ x result, ret (result +:+ x)) acc h = (Return (acc +:+ join arr), h).
Proof.
  revert acc. induction arr as [|x arr IH]; intros acc; simpl.
  - by rewrite append_nil_r.
  - unfold bind, ret at 1. rewrite IH. by rewrite append_assoc.
Qed.

(** ** [stringify] *)

Lemma stringify_O (this : loc) (h : heap) :
  CSSSelector.stringify 0 this h = (OutOfFuel, h).
Proof. reflexivity. Qed.

Lemma stringify_dangling (fuel : nat) (this : loc) (h : heap) :
  h !! this = None →
  CSSSelector.stringify (S fuel) this h = (Throw TypeError, h).
Proof. intros Ho. simpl. by rewrite (bind_Throw _ _ h h TypeError) by by apply get_None. Qed.

Lemma readonly_stringify (fuel : nat) (this : loc) :
  readonly (CSSSelector.stringify fuel this).
Proof.
  revert this. induction fuel as [|fuel IH]; intros this; [by intros h|].
  simpl.
  repeat first
    [ apply readonly_ret
    | apply readonly_get
    | apply readonly_forEach; intros
    | apply IH
    | apply readonly_bind; [|intros] ].
Qed.

(** One call of [stringify] on a live object, with the loops over the three
    fragment arrays carried out. *)
Lemma stringify_S (fuel : nat) (this : loc) (h : heap) (o : Selector) :
  h !! this = Some o →
  CSSSelector.stringify (S fuel) this h =
  bind (forEach (combined o) (combined_callback fuel) (own_fragments o))
       (λ result, ret (result +:+ pseudoElementValue o)) h.
Proof.
  intros Ho. simpl.
  rewrite (bind_Return _ _ h h (tag o)) by by apply get_Some.
  rewrite (bind_Return _ _ h h (idValue o)) by by apply get_Some.
  rewrite (bind_Return _ _ h h (classes o)) by by apply get_Some.
  rewrite (bind_Return _ _ h h _ (forEach_append _ _ _)).
  rewrite (bind_Return _ _ h h (attributes o)) by by apply get_Some.
  rewrite (bind_Return _ _ h h _ (forEach_append _ _ _)).
  rewrite (bind_Return _ _ h h (pseudoClasses o)) by by apply get_Some.
  rewrite (bind_Return _ _ h h _ (forEach_append _ _ _)).
  rewrite (bind_Return _ _ h h (combined o)) by by apply get_Some.
  rewrite !append_assoc. fold (own_fragments o).
  change (λ (selector : string * loc) (result : string),
            let! s := CSSSelector.stringify fuel (selector.2) in
            ret (result +:+ " " +:+ selector.1 +:+ " " +:+ s))
    with (combined_callback fuel).
  pose proof (readonly_forEach (combined o) (combined_callback fuel)
                (own_fragments o)) as Hro.
  specialize (Hro (λ x r, readonly_bind _ _ (readonly_stringify fuel x.2)
                            (λ s, readonly_ret _)) h).
  unfold bind at 1 3.
  destruct (forEach (combined o) (combined_callback fuel) (own_fragments o) h)
    as [[r| |] h']; simpl in Hro; subst h'; [|done..].
  by rewrite (bind_Return _ _ h h (pseudoElementValue o)) by by apply get_Some.
Qed.

Lemma readonly_combined_callback (fuel : nat) (selector : string * loc) (result : string) :
  readonly (combined_callback fuel selector result).
Proof.
  apply readonly_bind; [apply readonly_stringify | intros; apply readonly_ret].
Qed.

Lemma stringify_heap (fuel : nat) (this : loc) (h h' : heap) (r : outcome string) :
  CSSSelector.stringify fuel this h = (r, h') → h' = h.
Proof. intros H. pose proof (readonly_stringify fuel this h) as E. by rewrite H in E. Qed.

(** One round of the loop over [this.combined]. *)
Lemma combined_loop_cons (fuel : nat) (c : string) (r : loc)
    (rest : list (string * loc)) (acc : string) (h : heap) :
  forEach ((c, r) :: rest) (combined_callback fuel) acc h =
  match (CSSSelector.stringify fuel r h).1 with
  | Return s => forEach rest (combined_callback fuel) (acc +:+ segment c s) h
  | Throw msg => (Throw msg, h)
  | OutOfFuel => (OutOfFuel, h)
  end.
Proof.
  simpl. unfold combined_callback, bind, ret. simpl.
  destruct (CSSSelector.stringify fuel r h) as [[s|msg|] h'] eqn:E;
    apply stringify_heap in E; subst h'; reflexivity.
Qed.

Lemma combined_loop_heap (fuel : nat) (entries : list (string * loc))
    (acc : string) (h h' : heap) (r : outcome string) :
  forEach entries (combined_callback fuel) acc h = (r, h') → h' = h.
Proof.
  intros H.
  pose proof (readonly_forEach entries (combined_callback fuel) acc
                (readonly_combined_callback fuel) h) as E.
  by rewrite H in E.
Qed.

(** The loop returns exactly when every operand does, and then it has
    appended one segment per entry, in the order of the entries. *)
Lemma combined_loop_Return (fuel : nat) (entries : list (string * loc))
    (acc result : string) (h : heap) :
  forEach entries (combined_callback fuel) acc h = (Return result, h) ↔
  ∃ segs, Forall2 (rendered fuel h) entries segs ∧ result = acc +:+ join segs.
Proof.
  revert acc. induction entries as [|[c r] rest IH]; intros acc.
  - simpl. unfold ret. split.
    + intros [= <-]. exists []. split; [constructor|]. by rewrite append_nil_r.
    + intros (segs & Hsegs & ->). inversion Hsegs; subst.
      by rewrite append_nil_r.
  - rewrite combined_loop_cons. split.
    + destruct (CSSSelector.stringify fuel r h) as [[s|msg|] h'] eqn:E;
        simpl; [|done..].
      pose proof (stringify_heap _ _ _ _ _ E); subst h'.
      intros (segs & Hsegs & ->)%IH. exists (segment c s :: segs). split.
      * constructor; [|done]. by exists s.
      * by rewrite join_cons, append_assoc.
    + intros (segs & Hsegs & ->). inversion Hsegs as [|? seg ? segs' Hseg Hrest]; subst.
      destruct Hseg as (s & Hs & ->). simpl in Hs. rewrite Hs. simpl.
      apply IH. exists segs'. split; [done|]. by rewrite join_cons, append_assoc.
Qed.

(** The loop throws only what an operand throws. *)
Lemma combined_loop_Throw (fuel : nat) (entries : list (string * loc))
    (acc msg : string) (h h' : heap) :
  forEach entries (combined_callback fuel) acc h = (Throw msg, h') →
  ∃ e, e ∈ entries ∧ (CSSSelector.stringify fuel e.2 h).1 = Throw msg.
Proof.
  revert acc. induction entries as [|[c r] rest IH]; intros acc; [done|].
  rewrite combined_loop_cons.
  destruct (CSSSelector.stringify fuel r h).1 as [s|msg'|] eqn:E; [| |done].
  - intros (e & He & Hthrow)%IH. exists e. split; [by right|done].
  - intros [= -> ->]. exists (c, r). split; [by left|done].
Qed.

(** The loop is still running as soon as one operand is, provided no operand
    throws. *)
Lemma combined_loop_OutOfFuel (fuel : nat) (entries : list (string * loc))
    (acc : string) (h : heap) (e : string * loc) :
  e ∈ entries →
  (CSSSelector.stringify fuel e.2 h).1 = OutOfFuel →
  (∀ e' msg, e' ∈ entries → (CSSSelector.stringify fuel e'.2 h).1 ≠ Throw msg) →
  forEach entries (combined_callback fuel) acc h = (OutOfFuel, h).
Proof.
  revert acc. induction entries as [|[c r] rest IH]; intros acc He Hfuel Hno.
  - by apply elem_of_nil in He.
  - rewrite combined_loop_cons.
    destruct (CSSSelector.stringify fuel r h).1 as [s|msg|] eqn:E; [| |done].
    + apply elem_of_cons in He as [->|He]; [simpl in Hfuel; congruence|].
      apply IH; [done..|]. intros e' msg He'. apply Hno. by right.
    + exfalso. apply (Hno (c, r) msg); [by left|done].
Qed.

(** [stringify] on a live object returns exactly when each of its operands
    does, and what it returns is the concatenation of its fragments. *)
Lemma stringify_Return (fuel : nat) (this : loc) (h : heap) (o : Selector) (s : string) :
  h !! this = Some o →
  CSSSelector.stringify (S fuel) this h = (Return s, h) ↔
  ∃ segs, Forall2 (rendered fuel h) (combined o) segs ∧
          s = own_fragments o +:+ join segs +:+ pseudoElementValue o.
Proof.
  intros Ho. rewrite (stringify_S _ _ _ _ Ho). unfold bind.
  destruct (forEach (combined o) (combined_callback fuel) (own_fragments o) h)
    as [[r|msg|] h'] eqn:E.
  - pose proof (combined_loop_heap _ _ _ _ _ _ E); subst h'.
    apply combined_loop_Return in E as (segs & Hsegs & ->). unfold ret. split.
    + intros [= <-]. exists segs. split; [done|]. by rewrite append_assoc.
    + intros (segs' & Hsegs' & ->). rewrite append_assoc.
      assert (segs' = segs) as ->; [|done].
      clear -Hsegs Hsegs'. revert segs' Hsegs'.
      induction Hsegs as [|e seg es segs (s & Hs & ->) _ IH]; intros segs' Hsegs';
        inversion Hsegs' as [|? seg' ? segs'' (s' & Hs' & ->) Hrest]; subst; [done|].
      rewrite Hs in Hs'. injection Hs' as <-. f_equal. by apply IH.
  - split; [done|]. intros (segs & Hsegs & _).
    pose proof (combined_loop_heap _ _ _ _ _ _ E); subst h'.
    assert (forEach (combined o) (combined_callback fuel) (own_fragments o) h
            = (Return (own_fragments o +:+ join segs), h)) as E'
      by (apply combined_loop_Return; eauto).
    congruence.
  - split; [done|]. intros (segs & Hsegs & _).
    pose proof (combined_loop_heap _ _ _ _ _ _ E); subst h'.
    assert (forEach (combined o) (combined_callback fuel) (own_fragments o) h
            = (Return (own_fragments o +:+ join segs), h)) as E'
      by (apply combined_loop_Return; eauto).
    congruence.
Qed.

(** A larger nesting budget does not change what [stringify] returns. *)
Lemma stringify_fuel_S (fuel : nat) (this : loc) (h : heap) (s : string) :
  CSSSelector.stringify fuel this h = (Return s, h) →
  CSSSelector.stringify (S fuel) this h = (Return s, h).
Proof.
  revert this s. induction fuel as [|fuel IH]; intros this s; [done|].
  destruct (h !! this) as [o|] eqn:Ho.
  - rewrite !(stringify_Return _ _ _ _ _ Ho).
    intros (segs & Hsegs & ->). exists segs. split; [|done].
    eapply Forall2_impl; [exact Hsegs|].
    intros e seg (s & Hs & ->). exists s. split; [by apply IH|done].
  - by rewrite (stringify_dangling fuel) by done.
Qed.

Lemma stringify_fuel_mono (fuel fuel' : nat) (this : loc) (h : heap) (s : string) :
  (fuel ≤ fuel')%nat →
  CSSSelector.stringify fuel this h = (Return s, h) →
  CSSSelector.stringify fuel' this h = (Return s, h).
Proof.
  induction 1 as [|fuel' _ IH]; [done|].
  intros Hs. by apply stringify_fuel_S, IH.
Qed.

(** Whatever the budgets, two returning runs agree. *)
Lemma stringify_deterministic (fuel fuel' : nat) (this : loc) (h : heap) (s s' : string) :
  CSSSelector.stringify fuel this h = (Return s, h) →
  CSSSelector.stringify fuel' this h = (Return s', h) →
  s = s'.
Proof.
  intros Hs Hs'.
  apply (stringify_fuel_mono _ (fuel `max` fuel')) in Hs; [|lia].
  apply (stringify_fuel_mono _ (fuel `max` fuel')) in Hs'; [|lia].
  congruence.
Qed.

(** ** The reference graph *)

Lemma refers_live (h : heap) (a b : loc) : refers h a b → is_Some (h !! a).
Proof. intros (o & c & Ho & _). eauto. Qed.

Lemma closed_reachable (h : heap) (this x : loc) :
  closed h → is_Some (h !! this) → rtc (refers h) this x → is_Some (h !! x).
Proof.
  intros Hcl Hthis Hreach. induction Hreach as [|a b c Hab _ IH]; [done|].
  apply IH. by apply (Hcl a b).
Qed.

(** In a closed store [stringify] raises no [TypeError]: it returns or is
    still running. *)
Lemma stringify_closed_no_Throw (fuel : nat) (this : loc) (h : heap) (msg : string) :
  closed h → is_Some (h !! this) →
  (CSSSelector.stringify fuel this h).1 ≠ Throw msg.
Proof.
  intros Hcl. revert this. induction fuel as [|fuel IH]; intros this [o Ho]; [done|].
  rewrite (stringify_S _ _ _ _ Ho). unfold bind.
  destruct (forEach (combined o) (combined_callback fuel) (own_fragments o) h)
    as [[r|msg'|] h'] eqn:E; simpl; [done| |done].
  apply combined_loop_Throw in E as ([c b] & Hin & Hthrow).
  intros [= ->]. apply (IH b); [|done].
  apply (Hcl this b). by exists o, c.
Qed.

(** An object that refers to a selector whose [stringify] is still running
    is itself still running, one level up. *)
Lemma stringify_OutOfFuel_step (fuel : nat) (a b : loc) (h : heap) :
  closed h → refers h a b →
  CSSSelector.stringify fuel b h = (OutOfFuel, h) →
  CSSSelector.stringify (S fuel) a h = (OutOfFuel, h).
Proof.
  intros Hcl (o & c & Ho & Hin) Hb.
  rewrite (stringify_S _ _ _ _ Ho).
  apply bind_OutOfFuel.
  apply (combined_loop_OutOfFuel _ _ _ _ (c, b)); [done|simpl; by rewrite Hb|].
  intros [c' b'] msg Hin'. apply stringify_closed_no_Throw; [done|].
  apply (Hcl a b'). by exists o, c'.
Qed.

(** On a cycle of references [stringify] never returns. *)
Lemma stringify_cycle (fuel : nat) (x : loc) (h : heap) :
  closed h → tc (refers h) x x →
  CSSSelector.stringify fuel x h = (OutOfFuel, h).
Proof.
  intros Hcl. revert x. induction fuel as [|fuel IH]; intros x Hx; [done|].
  assert (∃ z, refers h x z ∧ tc (refers h) z z) as (z & Hxz & Hz).
  { inversion Hx as [? ? Hxx|? z ? Hxz Hzx]; subst.
    - by exists x.
    - exists z. split; [done|]. eapply tc_r; eauto. }
  eapply stringify_OutOfFuel_step; eauto.
Qed.

(** The same holds for every selector from which a cycle can be reached. *)
Lemma stringify_reaches_cycle (this x : loc) (h : heap) :
  closed h → rtc (refers h) this x → tc (refers h) x x →
  ∀ fuel, CSSSelector.stringify fuel this h = (OutOfFuel, h).
Proof.
  intros Hcl Hreach Hx. induction Hreach as [x|a b x Hab _ IH].
  - intros fuel. by apply stringify_cycle.
  - intros [|fuel]; [done|]. eapply stringify_OutOfFuel_step; eauto.
Qed.

(** Termination.  [V] holds the objects whose [stringify] calls are active
    when [x] is reached; without a cycle they are pairwise distinct, so
    there cannot be more of them than objects in the store. *)
Lemma stringify_terminates_aux (h : heap) (root : loc) :
  closed h → is_Some (h !! root) → acyclic_from h root →
  ∀ fuel (V : gset loc) (x : loc),
    rtc (refers h) root x →
    (∀ v, v ∈ V → tc (refers h) v x) →
    V ⊆ dom h →
    (size (dom h) ≤ fuel + size V)%nat →
    ∃ s, CSSSelector.stringify fuel x h = (Return s, h).
Proof.
  intros Hcl Hroot Hacyc fuel.
  induction fuel as [|fuel IH]; intros V x Hreach Hanc Hsub Hsize.
  - exfalso. apply (Hacyc x Hreach). apply Hanc.
    assert (V ≡ dom h) as -> by (apply set_subseteq_size_equiv; [done|simpl in Hsize; lia]).
    apply elem_of_dom. by eapply closed_reachable.
  - destruct (closed_reachable h root x Hcl Hroot Hreach) as [o Ho].
    assert (x ∉ V) as HxV by (intros Hin; by apply (Hacyc x Hreach), Hanc).
    assert (Forall (λ e, ∃ s, CSSSelector.stringify fuel e.2 h = (Return s, h))
                   (combined o)) as Hall.
    { apply Forall_forall. intros [c r] Hin. simpl.
      assert (refers h x r) as Hxr by (by exists o, c).
      apply (IH (V ∪ {[x]})).
      - eapply rtc_r; eauto.
      - intros v [Hv| ->%elem_of_singleton]%elem_of_union.
        + eapply tc_r; eauto.
        + by apply tc_once.
      - apply union_subseteq. split; [done|].
        apply singleton_subseteq_l, elem_of_dom. eauto.
      - rewrite size_union by set_solver. rewrite size_singleton. lia. }
    assert (∃ segs, Forall2 (rendered fuel h) (combined o) segs) as [segs Hsegs].
    { clear -Hall. induction Hall as [|[c r] es [s Hs] _ [segs IH]].
      - exists []. constructor.
      - exists (segment c s :: segs). constructor; [by exists s|done]. }
    eexists. apply (stringify_Return _ _ _ _ _ Ho). eauto.
Qed.

(** Without a cycle, [stringify] returns, and the depth of its nested calls
    is at most the number of objects in the store. *)
Lemma stringify_terminates (h : heap) (this : loc) :
  closed h → is_Some (h !! this) → acyclic_from h this →
  ∃ s, CSSSelector.stringify (size (dom h)) this h = (Return s, h).
Proof.
  intros Hcl Hthis Hacyc.
  apply (stringify_terminates_aux h this Hcl Hthis Hacyc _ ∅).
  - done.
  - set_solver.
  - set_solver.
  - rewrite size_empty. lia.
Qed.


(** ** The fragment-adding methods on a live object *)

(** Runs the reads of a method body against the object [o] stored at [this]. *)
Ltac run_reads Ho :=
  unfold bind; repeat (rewrite (get_Some _ _ _ _ Ho); cbn beta iota).

Ltac run_write Ho :=
  unfold bind; rewrite (set_Some _ _ _ _ Ho); cbn beta iota.

Section methods.
Context (h : heap) (this : loc) (o : Selector).
Hypothesis Ho : h !! this = Some o.

Lemma element_run (value : string) :
  CSSSelector.element this value h =
  if truthy (tag o) then (Throw msg_once, h)
  else if truthy (idValue o) || truthy (pseudoElementValue o)
          || nonempty (classes o) || nonempty (pseudoClasses o)
          || nonempty (attributes o)
       then (Throw msg_order, h)
       else (Return this, <[this := set_tag value o]> h).
Proof.
  unfold CSSSelector.element. run_reads Ho.
  destruct (truthy (tag o)); [done|]. run_reads Ho.
  destruct (_ || _); [done|]. by run_write Ho.
Qed.

Lemma id_run (value : string) :
  CSSSelector.id this value h =
  if truthy (idValue o) then (Throw msg_once, h)
  else if truthy (pseudoElementValue o) || nonempty (classes o)
          || nonempty (pseudoClasses o) || nonempty (attributes o)
       then (Throw msg_order, h)
       else (Return this, <[this := set_idValue ("#" +:+ value) o]> h).
Proof.
  unfold CSSSelector.id. run_reads Ho.
  destruct (truthy (idValue o)); [done|]. run_reads Ho.
  destruct (_ || _); [done|]. by run_write Ho.
Qed.

Lemma pseudoElement_run (value : string) :
  CSSSelector.pseudoElement this value h =
  if truthy (pseudoElementValue o) then (Throw msg_once, h)
  else (Return this, <[this := set_pseudoElementValue ("::" +:+ value) o]> h).
Proof.
  unfold CSSSelector.pseudoElement. run_reads Ho.
  destruct (truthy (pseudoElementValue o)); [done|]. by run_write Ho.
Qed.

Lemma class_run (className : string) :
  CSSSelector.class this className h =
  if truthy (pseudoElementValue o) || nonempty (attributes o)
     || nonempty (pseudoClasses o)
  then (Throw msg_order, h)
  else (Return this, <[this := set_classes (classes o ++ ["." +:+ className]) o]> h).
Proof.
  unfold CSSSelector.class. run_reads Ho.
  destruct (_ || _); [done|]. by run_write Ho.
Qed.

Lemma pseudoClass_run (name : string) :
  CSSSelector.pseudoClass this name h =
  if truthy (pseudoElementValue o) then (Throw msg_order, h)
  else (Return this,
        <[this := set_pseudoClasses (pseudoClasses o ++ [":" +:+ name]) o]> h).
Proof.
  unfold CSSSelector.pseudoClass. run_reads Ho.
  destruct (truthy (pseudoElementValue o)); [done|]. by run_write Ho.
Qed.

Lemma attr_run (attr : string) :
  CSSSelector.attr this attr h =
  if truthy (pseudoElementValue o) || nonempty (pseudoClasses o)
  then (Throw msg_order, h)
  else (Return this,
        <[this := set_attributes (attributes o ++ ["[" +:+ attr +:+ "]"]) o]> h).
Proof.
  unfold CSSSelector.attr. run_reads Ho.
  destruct (_ || _); [done|]. by run_write Ho.
Qed.

Lemma combineWith_run (combinator : string) (selector : loc) :
  CSSSelector.combineWith this combinator selector h =
  (Return this,
   <[this := set_combined (combined o ++ [(combinator, selector)]) o]> h).
Proof. unfold CSSSelector.combineWith. by run_write Ho. Qed.

End methods.

(** A method called through a reference that holds no object. *)
Lemma get_dangling {A B} (this : loc) (field : Selector → A) (k : A → M B) (h : heap) :
  h !! this = None → bind (get this field) k h = (Throw TypeError, h).
Proof. intros Hn. apply bind_Throw. by apply get_None. Qed.

(** [new CSSSelector()] followed by the first call on the new object. *)
Lemma new_then {A} (k : loc → M A) (h : heap) :
  bind new_CSSSelector k h
  = k (fresh (dom h)) (<[fresh (dom h) := constructor]> h).
Proof. reflexivity. Qed.

Lemma fresh_not_live (h : heap) : h !! fresh (dom h) = None.
Proof. apply not_elem_of_dom, is_fresh. Qed.

(** ** The guards, by kind *)

(** What each fragment-adding method does on a live object: the duplicate
    guard comes first, then the ordering guard, then the assignment. *)
Lemma add_run (k : kind) (this : loc) (v : string) (h : heap) (o : Selector) :
  h !! this = Some o →
  add k this v h =
  if singleton k && present o k then (Throw msg_once, h)
  else if strictly_earlier k o then (Throw msg_order, h)
  else (Return this, <[this := store k v o]> h).
Proof.
  intros Ho.
  destruct k; simpl add;
    [ rewrite (element_run _ _ _ Ho) | rewrite (id_run _ _ _ Ho)
    | rewrite (class_run _ _ _ Ho) | rewrite (attr_run _ _ _ Ho)
    | rewrite (pseudoClass_run _ _ _ Ho) | rewrite (pseudoElement_run _ _ _ Ho) ];
    unfold strictly_earlier, most_specific, present, singleton; simpl;
    destruct (truthy (tag o)), (truthy (idValue o)), (nonempty (classes o)),
      (nonempty (attributes o)), (nonempty (pseudoClasses o)),
      (truthy (pseudoElementValue o)); reflexivity.
Qed.

Lemma add_dangling (k : kind) (this : loc) (v : string) (h : heap) :
  h !! this = None → add k this v h = (Throw TypeError, h).
Proof. intros Hn. destruct k; by apply get_dangling. Qed.

(** No guard fires on an object as the constructor leaves it. *)
Lemma add_new (k : kind) (this : loc) (v : string) (h : heap) :
  add k this v (<[this := constructor]> h)
  = (Return this, <[this := store k v constructor]> h).
Proof.
  rewrite (add_run _ _ _ _ constructor) by apply lookup_insert_eq.
  destruct k; simpl; by rewrite insert_insert_eq.
Qed.

Lemma msg_once_order : msg_once ≠ msg_order.
Proof. discriminate. Qed.

(** Once stored, an id or a pseudo-element is truthy whatever its name. *)
Lemma truthy_sigil (sigil : Ascii.ascii) (rest value : string) :
  truthy (String sigil rest +:+ value) = true.
Proof. reflexivity. Qed.

(** ** Stores built front to back *)

Lemma forward_refers (h : heap) (a b : loc) :
  forward h = true → refers h a b → (a < b)%nat ∧ is_Some (h !! b).
Proof.
  intros Hf%bool_decide_eq_true (o & c & Ho & Hin).
  specialize (Hf a o Ho). rewrite Forall_forall in Hf.
  apply (Hf (c, b) Hin).
Qed.

Lemma forward_closed (h : heap) : forward h = true → closed h.
Proof. intros Hf a b Hab. by apply (forward_refers h a b). Qed.

Lemma forward_acyclic (h : heap) (this : loc) : forward h = true → acyclic_from h this.
Proof.
  intros Hf x _ Hxx.
  assert (∀ a b, tc (refers h) a b → (a < b)%nat) as Hlt.
  { induction 1 as [a b Hab|a b c Hab _ IH].
    - by apply (forward_refers h a b).
    - apply (forward_refers h a b) in Hab as [? _]; [lia|done]. }
  specialize (Hlt x x Hxx). lia.
Qed.

(** Adding an entry whose operand is live keeps the store closed. *)
Lemma closed_combine (h : heap) (a b : loc) (o : Selector) (c : string) :
  closed h → h !! a = Some o → is_Some (h !! b) →
  closed (<[a := set_combined (combined o ++ [(c, b)]) o]> h).
Proof.
  intros Hcl Ho Hb x y (ox & cx & Hox & Hin).
  assert (is_Some (h !! y)) as [oy Hoy].
  { destruct (decide (a = x)) as [->|Hne].
    - rewrite lookup_insert_eq in Hox. injection Hox as <-. simpl in Hin.
      apply elem_of_app in Hin as [Hin|Hin].
      + apply (Hcl x y). by exists o, cx.
      + apply list_elem_of_singleton in Hin. by injection Hin as _ ->.
    - rewrite lookup_insert_ne in Hox by done. apply (Hcl x y). by exists ox, cx. }
  destruct (decide (a = y)) as [->|Hne].
  - rewrite lookup_insert_eq. eauto.
  - rewrite lookup_insert_ne by done. eauto.
Qed.

(** ** The examples of the task description *)

Example example1_runs : run example1 = Return "#main.container.editable".
Proof. vm_compute. reflexivity. Qed.

Example example2_runs :
  run example2 = Return ("a[href$=" +:+ dquote +:+ ".png" +:+ dquote +:+ "]:focus").
Proof. vm_compute. reflexivity. Qed.

Example example3_runs :
  run example3 =
  Return "div#main.container.draggable + table#data ~ tr:nth-of-type(even)   td:nth-of-type(even)".
Proof. vm_compute. reflexivity. Qed.

Example nested_heap_forward : forward nested_heap = true.
Proof. vm_compute. reflexivity. Qed.

(** ** The output of [stringify] *)

(** C1.  On every selector whose references are live and free of cycles,
    [stringify()] returns, and what it returns is the tag, the id value, the
    classes, the attributes and the pseudo-classes in insertion order, then
    one segment per combined entry in append order, then the pseudo-element
    value, and nothing else.  Any run of [stringify] that returns, returns
    this string. *)
Theorem stringify_concatenation (h : heap) (this : loc) (o : Selector) :
  closed h → acyclic_from h this → h !! this = Some o →
  ∃ fuel s segs,
    CSSSelector.stringify (S fuel) this h = (Return s, h) ∧
    Forall2 (rendered fuel h) (combined o) segs ∧
    s = tag o +:+ idValue o +:+ join (classes o) +:+ join (attributes o)
        +:+ join (pseudoClasses o) +:+ join segs +:+ pseudoElementValue o ∧
    ∀ fuel' s', CSSSelector.stringify fuel' this h = (Return s', h) → s' = s.
Proof.
  intros Hcl Hacyc Ho.
  destruct (stringify_terminates h this Hcl (mk_is_Some _ _ Ho) Hacyc) as [s Hs].
  destruct (size (dom h)) as [|fuel]; [done|].
  pose proof Hs as Hs'.
  apply (stringify_Return _ _ _ _ _ Ho) in Hs' as (segs & Hsegs & Heq).
  exists fuel, s, segs. repeat split; [done..| |].
  - rewrite Heq. unfold own_fragments. by rewrite !append_assoc.
  - intros fuel' s' Hs''. by apply (stringify_deterministic _ _ _ _ _ _ Hs'' Hs).
Qed.

Lemma stringify_concatenation_witness :
  ∃ fuel s segs,
    CSSSelector.stringify (S fuel) 0 nested_heap = (Return s, nested_heap) ∧
    Forall2 (rendered fuel nested_heap) (combined nested_div) segs ∧
    s = tag nested_div +:+ idValue nested_div +:+ join (classes nested_div)
        +:+ join (attributes nested_div) +:+ join (pseudoClasses nested_div)
        +:+ join segs +:+ pseudoElementValue nested_div ∧
    ∀ fuel' s', CSSSelector.stringify fuel' 0 nested_heap = (Return s', nested_heap) → s' = s.
Proof.
  apply (stringify_concatenation nested_heap 0 nested_div).
  - apply forward_closed. vm_compute. reflexivity.
  - apply forward_acyclic. vm_compute. reflexivity.
  - vm_compute. reflexivity.
Defined.

(** ** The ordering guard *)

(** C2, as stated, fails: on [element('a').id('x')] the kind element comes
    strictly before the most specific kind present (id), yet a further
    [element('b')] raises the duplicate error, not the ordering error. *)
Lemma ordering_error_when_earlier_fails :
  (let! s := cssSelectorBuilder.element "a" in CSSSelector.id s "x") ∅
    = (Return 0, {[0 := a_x]}) ∧
  strictly_earlier Element a_x = true ∧
  (add Element 0 "b" {[0 := a_x]}).1 = Throw msg_once ∧
  (add Element 0 "b" {[0 := a_x]}).1 ≠ Throw msg_order.
Proof. vm_compute. repeat split; discriminate. Qed.

(** C2, amended.  On every instance, a fragment-adding call whose kind comes
    strictly before the most specific kind present throws: the duplicate
    error when the method is [element] or [id] and that part is already
    present (its guard runs first), the ordering error otherwise.  A call
    whose kind does not come strictly before it raises no ordering error. *)
Theorem ordering_guard (h : heap) (this : loc) (o : Selector) (k : kind) (v : string) :
  h !! this = Some o →
  (strictly_earlier k o = true →
   (add k this v h).1
   = Throw (if singleton k && present o k then msg_once else msg_order)) ∧
  (strictly_earlier k o = false → (add k this v h).1 ≠ Throw msg_order).
Proof.
  intros Ho. rewrite (add_run _ _ _ _ _ Ho). split; intros ->.
  - by destruct (singleton k && present o k).
  - destruct (singleton k && present o k); simpl; [|done].
    intros H. apply msg_once_order. congruence.
Qed.

Lemma ordering_guard_witness :
  (strictly_earlier Element a_x = true →
   (add Element 0 "b" {[0 := a_x]}).1
   = Throw (if singleton Element && present a_x Element then msg_once else msg_order)) ∧
  (strictly_earlier Element a_x = false →
   (add Element 0 "b" {[0 := a_x]}).1 ≠ Throw msg_order).
Proof. apply (ordering_guard {[0 := a_x]} 0 a_x Element "b"). vm_compute. reflexivity. Defined.

(** ** The duplicate guard *)

(** Once [id] or [pseudoElement] has returned on an instance, or [element]
    has with a non-empty name, a further call of the same method on the state
    it left throws the duplicate error, whatever the arguments. *)
Lemma singleton_twice (k : kind) (this : loc) (v v' : string) (h h' : heap) :
  singleton k = true → (k = Element → v ≠ "") →
  add k this v h = (Return this, h') →
  add k this v' h' = (Throw msg_once, h').
Proof.
  intros Hk Hv Hadd.
  destruct (h !! this) as [o|] eqn:Ho; [|by rewrite add_dangling in Hadd].
  rewrite (add_run _ _ _ _ _ Ho) in Hadd.
  destruct (singleton k && present o k); [done|].
  destruct (strictly_earlier k o); [done|].
  injection Hadd as <-.
  rewrite (add_run _ _ _ _ (store k v o)) by apply lookup_insert_eq.
  destruct k; try done; simpl.
  destruct v; [by destruct Hv|done].
Qed.

(** A singleton part that is present stays present through every later
    fragment-adding call, whether that call returns or throws. *)
Lemma singleton_kept (k k' : kind) (this : loc) (v : string) (h : heap) (o : Selector) :
  singleton k = true → h !! this = Some o → present o k = true →
  ∃ o', (add k' this v h).2 !! this = Some o' ∧ present o' k = true.
Proof.
  intros Hk Ho Hp. rewrite (add_run _ _ _ _ _ Ho).
  destruct (singleton k' && present o k') eqn:Hdup; [by exists o|].
  destruct (strictly_earlier k' o); [by exists o|].
  exists (store k' v o). split; [apply lookup_insert_eq|].
  destruct k, k'; try done; simpl in *; congruence.
Qed.

(** C3.  The call sequence [cssSelectorBuilder.element('').element('div')]
    raises nothing: the second call returns the instance, with the tag
    overwritten. *)
Theorem element_twice_after_empty_name :
  (let! s := cssSelectorBuilder.element "" in CSSSelector.element s "div") ∅
  = (Return 0, {[0 := set_tag "div" constructor]}).
Proof. vm_compute. reflexivity. Qed.

(** ** Combinators *)




(** ** The facade *)

(** C5.  [combine(left, combinator, right)] appends the pair to the
    combination list of [left], changes no other field and returns [left]
    itself, whatever the fragments of [left] and whatever [right] is; every
    other entry point of the facade, on any store, the empty one included,
    returns a reference no object had, to a new selector that holds exactly
    the one fragment. *)
Theorem facade_contract (h : heap) (left right : loc) (o : Selector)
    (combinator value : string) :
  (h !! left = Some o →
   cssSelectorBuilder.combine left combinator right h
   = (Return left,
      <[left := mkSelector (classes o) (attributes o) (pseudoClasses o)
                  (combined o ++ [(combinator, right)])
                  (tag o) (idValue o) (pseudoElementValue o)]> h)) ∧
  h !! fresh (dom h) = None ∧
  cssSelectorBuilder.element value h
  = (Return (fresh (dom h)),
     <[fresh (dom h) := mkSelector [] [] [] [] value "" ""]> h) ∧
  cssSelectorBuilder.id value h
  = (Return (fresh (dom h)),
     <[fresh (dom h) := mkSelector [] [] [] [] "" ("#" +:+ value) ""]> h) ∧
  cssSelectorBuilder.class value h
  = (Return (fresh (dom h)),
     <[fresh (dom h) := mkSelector ["." +:+ value] [] [] [] "" "" ""]> h) ∧
  cssSelectorBuilder.attr value h
  = (Return (fresh (dom h)),
     <[fresh (dom h) := mkSelector [] ["[" +:+ value +:+ "]"] [] [] "" "" ""]> h) ∧
  cssSelectorBuilder.pseudoClass value h
  = (Return (fresh (dom h)),
     <[fresh (dom h) := mkSelector [] [] [":" +:+ value] [] "" "" ""]> h) ∧
  cssSelectorBuilder.pseudoElement value h
  = (Return (fresh (dom h)),
     <[fresh (dom h) := mkSelector [] [] [] [] "" "" ("::" +:+ value)]> h).
Proof.
  split.
  { intros Ho. unfold cssSelectorBuilder.combine.
    by rewrite (bind_Return _ _ _ _ _ (combineWith_run _ _ _ Ho _ _)). }
  split; [apply fresh_not_live|].
  assert (∀ k, facade k value h
               = (Return (fresh (dom h)),
                  <[fresh (dom h) := store k value constructor]> h)) as Hk.
  { intros k.
    assert (facade k value
            = (let! selector := new_CSSSelector in
               let! _ := add k selector value in ret selector)) as ->
      by by destruct k.
    rewrite new_then. by rewrite (bind_Return _ _ _ _ _ (add_new k _ value h)). }
  repeat split;
    [ apply (Hk Element) | apply (Hk Id) | apply (Hk Class)
    | apply (Hk Attribute) | apply (Hk PseudoClass) | apply (Hk PseudoElement) ].
Qed.

(** [combine] on the selector [element('a').id('x')] with itself as the
    operand, and the six other entry points on the empty store. *)
Lemma facade_contract_witness :
  cssSelectorBuilder.combine 0 "+" 0 {[0 := mkSelector [] [] [] [] "a" "#x" ""]}
  = (Return 0,
     <[0 := mkSelector [] [] [] [("+", 0)] "a" "#x" ""]>
       {[0 := mkSelector [] [] [] [] "a" "#x" ""]}) ∧
  (∅ : heap) !! 0 = None ∧
  cssSelectorBuilder.element "p" ∅
  = (Return 0, <[0 := mkSelector [] [] [] [] "p" "" ""]> ∅) ∧
  cssSelectorBuilder.id "p" ∅
  = (Return 0, <[0 := mkSelector [] [] [] [] "" "#p" ""]> ∅) ∧
  cssSelectorBuilder.class "p" ∅
  = (Return 0, <[0 := mkSelector [".p"] [] [] [] "" "" ""]> ∅) ∧
  cssSelectorBuilder.attr "p" ∅
  = (Return 0, <[0 := mkSelector [] ["[p]"] [] [] "" "" ""]> ∅) ∧
  cssSelectorBuilder.pseudoClass "p" ∅
  = (Return 0, <[0 := mkSelector [] [] [":p"] [] "" "" ""]> ∅) ∧
  cssSelectorBuilder.pseudoElement "p" ∅
  = (Return 0, <[0 := mkSelector [] [] [] [] "" "" "::p"]> ∅).
Proof.
  split.
  - apply (proj1 (facade_contract {[0 := mkSelector [] [] [] [] "a" "#x" ""]} 0 0
                    (mkSelector [] [] [] [] "a" "#x" "") "+" "p")).
    vm_compute. reflexivity.
  - exact (proj2 (facade_contract ∅ 0 0 constructor "+" "p")).
Defined.

(** ** Errors *)

(** C6.  A fragment-adding call that throws leaves the store, and so every
    field of the instance, exactly as it was before the call. *)
Theorem throw_leaves_state (k : kind) (this : loc) (v msg : string) (h : heap) :
  (add k this v h).1 = Throw msg → (add k this v h).2 = h.
Proof.
  destruct (h !! this) as [o|] eqn:Ho.
  - rewrite (add_run _ _ _ _ _ Ho).
    destruct (singleton k && present o k); [done|].
    by destruct (strictly_earlier k o).
  - by rewrite add_dangling.
Qed.

Lemma throw_leaves_state_witness :
  (add Element 0 "b" {[0 := a_x]}).1 = Throw msg_once ∧
  (add Element 0 "b" {[0 := a_x]}).2 = {[0 := a_x]}.
Proof.
  split; [vm_compute; reflexivity|].
  apply (throw_leaves_state Element 0 "b" msg_once). vm_compute. reflexivity.
Defined.

(** ** References, not strings *)

Lemma stringify_before_addition :
  CSSSelector.stringify 2 0 a_child_b_heap = (Return "a > b", a_child_b_heap).
Proof. vm_compute. reflexivity. Qed.

Lemma stringify_after_addition :
  (let! _ := CSSSelector.class 1 "x" in CSSSelector.stringify 2 0) a_child_b_heap
  = (Return "a > b.x", <[1 := store Class "x" (store Element "b" constructor)]> a_child_b_heap).
Proof. vm_compute. reflexivity. Qed.

(** ** Purity *)

(** C8.  [stringify()] writes to no object of the store, running it again
    on the store it leaves gives the same outcome, and any two runs that
    return, return the same string. *)
Theorem stringify_pure (fuel fuel' : nat) (this : loc) (h h' : heap)
    (r : outcome string) :
  CSSSelector.stringify fuel this h = (r, h') →
  h' = h ∧
  CSSSelector.stringify fuel this h' = (r, h') ∧
  ∀ s s', r = Return s →
          (CSSSelector.stringify fuel' this h').1 = Return s' → s' = s.
Proof.
  intros Hrun. pose proof (stringify_heap _ _ _ _ _ Hrun); subst h'.
  split; [done|]. split; [done|].
  intros s s' -> Hs'.
  destruct (CSSSelector.stringify fuel' this h) as [r' h''] eqn:Hrun'.
  pose proof (stringify_heap _ _ _ _ _ Hrun'); subst h''. simpl in Hs'. subst r'.
  by apply (stringify_deterministic _ _ _ _ _ _ Hrun' Hrun).
Qed.

Lemma stringify_pure_witness :
  nested_heap = nested_heap ∧
  CSSSelector.stringify 4 0 nested_heap
  = (Return "div#main.container.draggable + table#data ~ tr:nth-of-type(even)   td:nth-of-type(even)",
     nested_heap) ∧
  ∀ s s',
    Return "div#main.container.draggable + table#data ~ tr:nth-of-type(even)   td:nth-of-type(even)"
    = Return s →
    (CSSSelector.stringify 9 0 nested_heap).1 = Return s' → s' = s.
Proof.
  apply (stringify_pure 4 9 0 nested_heap nested_heap). vm_compute. reflexivity.
Defined.

(** ** Presence is truthiness *)

(** C9.  After [cssSelectorBuilder.element('')] the tag is still the empty
    string, so a further [element(v)] on the instance returns it with the
    tag overwritten with [v]; [id('')] and [pseudoElement('')] store ['#']
    and ['::'], and a further [id(v)] or [pseudoElement(v)] throws the
    duplicate error and changes nothing. *)
Theorem empty_element_name_not_present (h : heap) (v : string) :
  cssSelectorBuilder.element "" h
  = (Return (fresh (dom h)),
     <[fresh (dom h) := mkSelector [] [] [] [] "" "" ""]> h) ∧
  (let! s := cssSelectorBuilder.element "" in CSSSelector.element s v) h
  = (Return (fresh (dom h)),
     <[fresh (dom h) := mkSelector [] [] [] [] v "" ""]> h) ∧
  cssSelectorBuilder.id "" h
  = (Return (fresh (dom h)),
     <[fresh (dom h) := mkSelector [] [] [] [] "" "#" ""]> h) ∧
  (let! s := cssSelectorBuilder.id "" in CSSSelector.id s v) h
  = (Throw msg_once,
     <[fresh (dom h) := mkSelector [] [] [] [] "" "#" ""]> h) ∧
  cssSelectorBuilder.pseudoElement "" h
  = (Return (fresh (dom h)),
     <[fresh (dom h) := mkSelector [] [] [] [] "" "" "::"]> h) ∧
  (let! s := cssSelectorBuilder.pseudoElement "" in CSSSelector.pseudoElement s v) h
  = (Throw msg_once,
     <[fresh (dom h) := mkSelector [] [] [] [] "" "" "::"]> h).
Proof.
  assert (∀ k, facade k "" h
               = (Return (fresh (dom h)), <[fresh (dom h) := store k "" constructor]> h))
    as Hfacade.
  { intros k.
    assert (facade k ""
            = (let! selector := new_CSSSelector in
               let! _ := add k selector "" in ret selector)) as ->
      by by destruct k.
    rewrite new_then. by rewrite (bind_Return _ _ _ _ _ (add_new k _ "" h)). }
  split; [apply (Hfacade Element)|].
  split.
  { rewrite (bind_Return _ _ _ _ _ (Hfacade Element)).
    rewrite (element_run _ _ _ (lookup_insert_eq _ _ _)). simpl.
    by rewrite insert_insert_eq. }
  split; [apply (Hfacade Id)|].
  split.
  { rewrite (bind_Return _ _ _ _ _ (Hfacade Id)).
    by rewrite (id_run _ _ _ (lookup_insert_eq _ _ _)). }
  split; [apply (Hfacade PseudoElement)|].
  rewrite (bind_Return _ _ _ _ _ (Hfacade PseudoElement)).
  by rewrite (pseudoElement_run _ _ _ (lookup_insert_eq _ _ _)).
Qed.

(** On the empty store, with the name ['div'] for the second call. *)
Example empty_element_name_then_div :
  (let! s := cssSelectorBuilder.element "" in CSSSelector.element s "div") ∅
  = (Return 0, {[0 := mkSelector [] [] [] [] "div" "" ""]}) ∧
  (let! s := cssSelectorBuilder.id "" in CSSSelector.id s "div") ∅
  = (Throw msg_once, {[0 := mkSelector [] [] [] [] "" "#" ""]}) ∧
  (let! s := cssSelectorBuilder.pseudoElement "" in CSSSelector.pseudoElement s "div") ∅
  = (Throw msg_once, {[0 := mkSelector [] [] [] [] "" "" "::"]}).
Proof. vm_compute. repeat split; reflexivity. Qed.

(** ** Termination *)

(** C10.  On a selector whose references are live and free of cycles,
    [stringify()] returns, having called itself on the operand of each
    combined entry, with a depth of nested calls no larger than the number of
    objects.  [combineWith] checks nothing: it also accepts the receiver
    itself as the operand, and on the selector this leaves, [stringify()]
    is still running whatever the depth allowed. *)
Theorem stringify_termination (h : heap) (this : loc) (o : Selector) (c : string) :
  closed h → h !! this = Some o →
  (acyclic_from h this →
   ∃ fuel s segs,
     (S fuel ≤ size (dom h))%nat ∧
     CSSSelector.stringify (S fuel) this h = (Return s, h) ∧
     Forall2 (rendered fuel h) (combined o) segs) ∧
  ∃ h',
    CSSSelector.combineWith this c this h = (Return this, h') ∧
    h' !! this = Some (set_combined (combined o ++ [(c, this)]) o) ∧
    ∀ fuel, CSSSelector.stringify fuel this h' = (OutOfFuel, h').
Proof.
  intros Hcl Ho. split.
  - intros Hacyc.
    destruct (stringify_terminates h this Hcl (mk_is_Some _ _ Ho) Hacyc) as [s Hs].
    destruct (size (dom h)) as [|fuel]; [done|].
    pose proof Hs as (segs & Hsegs & _)%(stringify_Return _ _ _ _ _ Ho).
    exists fuel, s, segs. by repeat split.
  - eexists. split; [apply (combineWith_run _ _ _ Ho)|].
    split; [apply lookup_insert_eq|].
    apply (stringify_reaches_cycle this this).
    + apply closed_combine; eauto.
    + done.
    + apply tc_once. eexists _, c. split; [apply lookup_insert_eq|].
      simpl. apply elem_of_app. right. by left.
Qed.

Lemma stringify_termination_witness :
  (acyclic_from a_child_b_heap 0 →
   ∃ fuel s segs,
     (S fuel ≤ size (dom a_child_b_heap))%nat ∧
     CSSSelector.stringify (S fuel) 0 a_child_b_heap = (Return s, a_child_b_heap) ∧
     Forall2 (rendered fuel a_child_b_heap)
             (combined (set_combined [(">", 1)] (store Element "a" constructor))) segs) ∧
  ∃ h',
    CSSSelector.combineWith 0 "+" 0 a_child_b_heap = (Return 0, h') ∧
    h' !! 0
    = Some (set_combined
              (combined (set_combined [(">", 1)] (store Element "a" constructor))
               ++ [("+", 0)])
              (set_combined [(">", 1)] (store Element "a" constructor))) ∧
    ∀ fuel, CSSSelector.stringify fuel 0 h' = (OutOfFuel, h').
Proof.
  apply (stringify_termination a_child_b_heap 0
           (set_combined [(">", 1)] (store Element "a" constructor)) "+").
  - apply forward_closed. vm_compute. reflexivity.
  - vm_compute. reflexivity.
Defined.

(** [combine(a, '+', a)] on [a = element('a')]: no depth is enough. *)
Example self_combined_runs_forever (fuel : nat) :
  self_combined ∅ = (Return 0, self_combined_heap) ∧
  CSSSelector.stringify fuel 0 self_combined_heap = (OutOfFuel, self_combined_heap).
Proof.
  split; [vm_compute; reflexivity|].
  assert (self_combined_heap
          = <[0 := set_combined (combined (store Element "a" constructor) ++ [("+", 0)])
                     (store Element "a" constructor)]>
              {[0 := store Element "a" constructor]}) as ->
    by (vm_compute; reflexivity).
  apply stringify_cycle.
  - apply closed_combine.
    + apply forward_closed. vm_compute. reflexivity.
    + apply lookup_singleton_eq.
    + rewrite lookup_singleton_eq. eauto.
  - apply tc_once. eexists _, "+". split; [apply lookup_insert_eq|].
    simpl. by left.
Qed.

(** * Further properties of the builder *)

(** ** What a fragment-adding call accepts *)

Lemma truthy_false (s : string) : truthy s = false → s = "".
Proof. by destruct s. Qed.

Lemma nonempty_false {A} (arr : list A) : nonempty arr = false → arr = [].
Proof. by destruct arr. Qed.

Lemma nonempty_snoc {A} (arr : list A) (x : A) : nonempty (arr ++ [x]) = true.
Proof. by destruct arr. Qed.

(** [admits] is the conjunction of the two guards. *)
Lemma admits_guards (o : Selector) (k : kind) :
  admits o k = negb (singleton k && present o k) && negb (strictly_earlier k o).
Proof.
  unfold admits, strictly_earlier, most_specific, present, singleton, kinds.
  destruct k; simpl;
    destruct (truthy (tag o)), (truthy (idValue o)), (nonempty (classes o)),
      (nonempty (attributes o)), (nonempty (pseudoClasses o)),
      (truthy (pseudoElementValue o)); reflexivity.
Qed.

Lemma add_admits (k : kind) (this : loc) (v : string) (h : heap) (o : Selector) :
  h !! this = Some o →
  add k this v h =
  if admits o k then (Return this, <[this := store k v o]> h)
  else (Throw (if singleton k && present o k then msg_once else msg_order), h).
Proof.
  intros Ho. rewrite (add_run _ _ _ _ _ Ho), admits_guards.
  destruct (singleton k && present o k); [done|].
  by destruct (strictly_earlier k o).
Qed.

(** What is present after a call that returned. *)
Lemma present_store (o : Selector) (k k' : kind) (v : string) :
  admits o k = true →
  present (store k v o) k'
  = present o k' || (bool_decide (k' = k) && negb (repeatable (k, v)) || bool_decide (k' = k) && negb (singleton k)).
Proof.
  rewrite admits_guards. unfold strictly_earlier, most_specific, repeatable.
  destruct k, k'; simpl;
    rewrite ?nonempty_snoc;
    destruct (truthy (tag o)) eqn:?, (truthy (idValue o)) eqn:?,
      (nonempty (classes o)) eqn:?, (nonempty (attributes o)) eqn:?,
      (nonempty (pseudoClasses o)) eqn:?, (truthy (pseudoElementValue o)) eqn:?;
    simpl; try done; by destruct v.
Qed.

(** After a call that returned, a further call is accepted exactly when it
    was acceptable before and may follow the call just made. *)
Lemma admits_store (o : Selector) (k k2 : kind) (v v2 : string) :
  admits o k = true →
  admits (store k v o) k2 = admits o k2 && followsb (k, v) (k2, v2).
Proof.
  intros Hk. unfold admits at 1. unfold kinds. cbn [forallb].
  rewrite !(present_store o k _ v Hk).
  revert Hk. unfold admits, kinds, followsb, repeatable, present. cbn [forallb].
  destruct k, k2; simpl;
    destruct (truthy (tag o)), (truthy (idValue o)), (nonempty (classes o)),
      (nonempty (attributes o)), (nonempty (pseudoClasses o)),
      (truthy (pseudoElementValue o)); simpl; try done; by destruct v.
Qed.

(** ** The grammar of fluent chains *)

(** A chain on a live object returns exactly when the object admits every
    call and each call may follow all the calls before it. *)
Lemma chain_returns (calls : list (kind * string)) (this : loc) (h : heap) (o : Selector) :
  h !! this = Some o →
  (∃ a, (chain this calls h).1 = Return a) ↔
  Forall (λ call, admits o call.1 = true) calls ∧ StronglySorted follows calls.
Proof.
  revert h o. induction calls as [|[k v] rest IH]; intros h o Ho.
  - simpl. split; [intros _; split; constructor | intros _; by exists this].
  - cbn [chain]. unfold bind. rewrite (add_admits _ _ _ _ _ Ho).
    rewrite Forall_cons, StronglySorted_cons. cbn [fst].
    destruct (admits o k) eqn:Hk.
    + rewrite (IH _ (store k v o)) by apply lookup_insert_eq.
      assert (Forall (λ call, admits (store k v o) call.1 = true) rest
              ↔ Forall (λ call, admits o call.1 = true) rest ∧ Forall (follows (k, v)) rest)
        as ->.
      { rewrite <- Forall_and. apply Forall_proper; [|done]. intros [k2 v2]. cbn [fst].
        rewrite (admits_store o k k2 v v2 Hk). unfold follows.
        by rewrite andb_true_iff. }
      tauto.
    + simpl. split; [by intros [a Ha]|]. intros [[? _] _]. done.
Qed.

(** When it returns, a chain returns the object it started on, holding the
    fragments of all the calls. *)
Lemma chain_result (calls : list (kind * string)) (this a : loc) (h : heap) (o : Selector) :
  h !! this = Some o →
  (chain this calls h).1 = Return a →
  chain this calls h = (Return this, <[this := stores o calls]> h).
Proof.
  revert h o. induction calls as [|[k v] rest IH]; intros h o Ho.
  - intros _. simpl. unfold ret. by rewrite insert_id.
  - cbn [chain]. unfold bind. rewrite (add_admits _ _ _ _ _ Ho).
    destruct (admits o k); [|done].
    intros Hrest.
    rewrite (IH _ (store k v o) (lookup_insert_eq _ _ _) Hrest).
    by rewrite insert_insert_eq.
Qed.

Lemma admits_constructor (k : kind) : admits constructor k = true.
Proof. by destruct k. Qed.

Lemma facade_run (k : kind) (v : string) (h : heap) :
  facade k v h
  = (Return (fresh (dom h)), <[fresh (dom h) := store k v constructor]> h).
Proof.
  assert (facade k v
          = (let! selector := new_CSSSelector in
             let! _ := add k selector v in ret selector)) as ->
    by by destruct k.
  rewrite new_then. by rewrite (bind_Return _ _ _ _ _ (add_new k _ v h)).
Qed.

(** The facade call is the first call of a chain on a new object. *)
Lemma fluent_chain (k : kind) (v : string) (rest : list (kind * string)) (h : heap) :
  fluent k v rest h
  = chain (fresh (dom h)) ((k, v) :: rest) (<[fresh (dom h) := constructor]> h).
Proof.
  unfold fluent. rewrite (bind_Return _ _ _ _ _ (facade_run k v h)).
  cbn [chain]. by rewrite (bind_Return _ _ _ _ _ (add_new k _ v h)).
Qed.

(** A chain that starts at the facade returns exactly when every call may
    follow all the calls before it: its kind comes strictly later in the
    canonical order than theirs, or is the same kind where that kind may
    repeat (class, attribute, pseudo-class, and element after an empty
    name). *)
Theorem fluent_grammar (k : kind) (v : string) (rest : list (kind * string)) (h : heap) :
  (∃ a, (fluent k v rest h).1 = Return a) ↔ StronglySorted follows ((k, v) :: rest).
Proof.
  rewrite fluent_chain, (chain_returns _ _ _ constructor) by apply lookup_insert_eq.
  split; [by intros [_ ?]|]. intros Hsorted. split; [|done].
  apply Forall_forall. intros call _. apply admits_constructor.
Qed.

(** ** The text of an accepted chain *)

Lemma admits_later_absent (o : Selector) (k k' : kind) :
  admits o k = true → (rank k < rank k')%nat → present o k' = false.
Proof.
  unfold admits, kinds, present. cbn [forallb].
  destruct k, k'; simpl; try lia;
    destruct (truthy (tag o)), (truthy (idValue o)), (nonempty (classes o)),
      (nonempty (attributes o)), (nonempty (pseudoClasses o)),
      (truthy (pseudoElementValue o)); simpl; done.
Qed.

Lemma admits_singleton_absent (o : Selector) (k : kind) :
  admits o k = true → singleton k = true → present o k = false.
Proof.
  rewrite admits_guards. destruct (present o k); [|done].
  by destruct (singleton k).
Qed.

(** A call that returns adds its fragment at the end of the selector's own
    text. *)
Lemma own_text_store (o : Selector) (k : kind) (v : string) :
  admits o k = true →
  own_fragments (store k v o) +:+ pseudoElementValue (store k v o)
  = (own_fragments o +:+ pseudoElementValue o) +:+ fragment (k, v).
Proof.
  intros Hk.
  pose proof (λ k' Hlt, admits_later_absent o k k' Hk Hlt) as Hl.
  pose proof (admits_singleton_absent o k Hk) as Hs.
  unfold own_fragments, fragment.
  destruct k; simpl in *.
  - rewrite (truthy_false _ (Hs eq_refl)),
      (truthy_false _ (Hl Id ltac:(simpl; lia))),
      (nonempty_false _ (Hl Class ltac:(simpl; lia))),
      (nonempty_false _ (Hl Attribute ltac:(simpl; lia))),
      (nonempty_false _ (Hl PseudoClass ltac:(simpl; lia))),
      (truthy_false _ (Hl PseudoElement ltac:(simpl; lia))).
    simpl. by rewrite ?append_nil_r.
  - rewrite (truthy_false _ (Hs eq_refl)),
      (nonempty_false _ (Hl Class ltac:(simpl; lia))),
      (nonempty_false _ (Hl Attribute ltac:(simpl; lia))),
      (nonempty_false _ (Hl PseudoClass ltac:(simpl; lia))),
      (truthy_false _ (Hl PseudoElement ltac:(simpl; lia))).
    simpl. by rewrite ?append_assoc, ?append_nil_r, ?append_assoc.
  - rewrite (nonempty_false _ (Hl Attribute ltac:(simpl; lia))),
      (nonempty_false _ (Hl PseudoClass ltac:(simpl; lia))),
      (truthy_false _ (Hl PseudoElement ltac:(simpl; lia))).
    simpl. rewrite join_app. simpl. by rewrite ?append_assoc, ?append_nil_r, ?append_assoc.
  - rewrite (nonempty_false _ (Hl PseudoClass ltac:(simpl; lia))),
      (truthy_false _ (Hl PseudoElement ltac:(simpl; lia))).
    simpl. rewrite join_app. simpl. by rewrite ?append_assoc, ?append_nil_r, ?append_assoc.
  - rewrite (truthy_false _ (Hl PseudoElement ltac:(simpl; lia))).
    simpl. rewrite join_app. simpl. by rewrite ?append_assoc, ?append_nil_r, ?append_assoc.
  - rewrite (truthy_false _ (Hs eq_refl)).
    by rewrite ?append_assoc, ?append_nil_r, ?append_assoc.
Qed.

Lemma own_text_stores (calls : list (kind * string)) (o : Selector) :
  Forall (λ call, admits o call.1 = true) calls →
  StronglySorted follows calls →
  own_fragments (stores o calls) +:+ pseudoElementValue (stores o calls)
  = (own_fragments o +:+ pseudoElementValue o) +:+ join (map fragment calls).
Proof.
  revert o. induction calls as [|[k v] rest IH]; intros o Hadm Hsorted.
  - simpl. by rewrite append_nil_r.
  - apply Forall_cons in Hadm as [Hk Hadm]. cbn [fst] in Hk.
    apply StronglySorted_cons in Hsorted as [Hfollows Hsorted].
    change (stores o ((k, v) :: rest)) with (stores (store k v o) rest).
    rewrite IH; [| |done].
    + rewrite (own_text_store o k v Hk). cbn [map].
      by rewrite join_cons, !append_assoc.
    + apply Forall_forall. intros [k2 v2] Hin. cbn [fst].
      rewrite (admits_store o k k2 v v2 Hk).
      rewrite Forall_forall in Hadm, Hfollows.
      apply andb_true_iff. split; [apply (Hadm _ Hin)|apply (Hfollows _ Hin)].
Qed.

Lemma combined_store (o : Selector) (k : kind) (v : string) :
  combined (store k v o) = combined o.
Proof. by destruct k. Qed.

Lemma combined_stores (calls : list (kind * string)) (o : Selector) :
  combined (stores o calls) = combined o.
Proof.
  revert o. induction calls as [|[k v] rest IH]; intros o; [done|].
  change (stores o ((k, v) :: rest)) with (stores (store k v o) rest).
  by rewrite IH, combined_store.
Qed.

(** A selector without combined entries needs no nested call. *)
Lemma stringify_leaf (fuel : nat) (this : loc) (h : heap) (o : Selector) :
  h !! this = Some o → combined o = [] →
  CSSSelector.stringify (S fuel) this h
  = (Return (own_fragments o +:+ pseudoElementValue o), h).
Proof.
  intros Ho Hleaf. apply (stringify_Return _ _ _ _ _ Ho).
  exists []. rewrite Hleaf. split; [constructor|done].
Qed.

(** For every accepted chain that starts at the facade, [stringify()]
    returns the fragments of the calls, in the order of the calls, and
    nothing else. *)
Theorem fluent_stringify (k : kind) (v : string) (rest : list (kind * string))
    (h : heap) (fuel : nat) :
  StronglySorted follows ((k, v) :: rest) →
  (let! s := fluent k v rest in CSSSelector.stringify (S fuel) s) h
  = (Return (join (map fragment ((k, v) :: rest))),
     <[fresh (dom h) := stores constructor ((k, v) :: rest)]> h).
Proof.
  intros Hsorted.
  assert (Forall (λ call, admits constructor call.1 = true) ((k, v) :: rest)) as Hadm
    by (apply Forall_forall; intros call _; apply admits_constructor).
  assert (∃ a, (chain (fresh (dom h)) ((k, v) :: rest)
                  (<[fresh (dom h) := constructor]> h)).1 = Return a) as [a Ha]
    by by apply (chain_returns _ _ _ constructor (lookup_insert_eq _ _ _)).
  apply (chain_result _ _ _ _ constructor (lookup_insert_eq _ _ _)) in Ha.
  rewrite insert_insert_eq in Ha.
  unfold bind at 1. rewrite fluent_chain, Ha.
  rewrite (stringify_leaf _ _ _ (stores constructor ((k, v) :: rest)))
    by (apply lookup_insert_eq || apply combined_stores).
  by rewrite (own_text_stores _ _ Hadm Hsorted).
Qed.

Lemma fluent_stringify_witness :
  (let! s := fluent Element "a" [(Class, "b"); (Class, "c"); (PseudoElement, "d")]
   in CSSSelector.stringify 1 s) ∅
  = (Return (join (map fragment
                     [(Element, "a"); (Class, "b"); (Class, "c"); (PseudoElement, "d")])),
     <[fresh (dom (∅ : heap)) :=
         stores constructor
           [(Element, "a"); (Class, "b"); (Class, "c"); (PseudoElement, "d")]]> ∅).
Proof.
  apply (fluent_stringify Element "a" [(Class, "b"); (Class, "c"); (PseudoElement, "d")] ∅ 0).
  repeat (constructor; [|repeat constructor]). constructor.
Defined.

(** ** The state of an instance *)

(** A kind that is present on an instance stays present through every
    later call on it, fragment-adding or [combineWith], whether the call
    returns or throws. *)
Theorem present_kept (k k' : kind) (this other : loc) (v c : string) (h : heap) (o : Selector) :
  h !! this = Some o → present o k = true →
  (∃ o', (add k' this v h).2 !! this = Some o' ∧ present o' k = true) ∧
  (∃ o', (CSSSelector.combineWith this c other h).2 !! this = Some o' ∧
         present o' k = true).
Proof.
  intros Ho Hp. split.
  - rewrite (add_admits _ _ _ _ _ Ho).
    destruct (admits o k') eqn:Hk'; [|by exists o].
    exists (store k' v o). split; [apply lookup_insert_eq|].
    by rewrite (present_store _ _ _ _ Hk'), Hp.
  - rewrite (combineWith_run _ _ _ Ho).
    eexists. split; [apply lookup_insert_eq|]. by destruct k.
Qed.

Lemma present_kept_witness :
  (∃ o', (add Class 0 "c" {[0 := a_x]}).2 !! 0 = Some o' ∧ present o' Id = true) ∧
  (∃ o', (CSSSelector.combineWith 0 ">" 0 {[0 := a_x]}).2 !! 0 = Some o' ∧
         present o' Id = true).
Proof.
  apply (present_kept Id Class 0 0 "c" ">" {[0 := a_x]} a_x).
  - vm_compute. reflexivity.
  - vm_compute. reflexivity.
Defined.

(** After a fragment-adding call that returned, the most specific kind
    present on the instance is the kind of that call; the one exception is
    [element] with the empty name, which leaves no kind present. *)
Theorem most_specific_after (k : kind) (this a : loc) (v : string) (h h' : heap) :
  add k this v h = (Return a, h') →
  ∃ o', h' !! this = Some o' ∧
        most_specific o' = if repeatable (k, v) && singleton k then None else Some k.
Proof.
  intros Hadd.
  destruct (h !! this) as [o|] eqn:Ho; [|by rewrite add_dangling in Hadd].
  rewrite (add_admits _ _ _ _ _ Ho) in Hadd.
  destruct (admits o k) eqn:Hk; [|done]. injection Hadd as <- <-.
  exists (store k v o). split; [apply lookup_insert_eq|].
  unfold most_specific. cbn [List.find].
  rewrite !(present_store _ _ _ _ Hk).
  revert Hk. unfold admits, kinds, repeatable, present. cbn [forallb].
  destruct k; simpl;
    destruct (truthy (tag o)), (truthy (idValue o)), (nonempty (classes o)),
      (nonempty (attributes o)), (nonempty (pseudoClasses o)),
      (truthy (pseudoElementValue o)); simpl; try done; by destruct (truthy v).
Qed.

Lemma most_specific_after_witness :
  ∃ o', (<[0 := store Class "c" a_x]> {[0 := a_x]} : heap) !! 0 = Some o' ∧
        most_specific o' = if repeatable (Class, "c") && singleton Class then None else Some Class.
Proof.
  apply (most_specific_after Class 0 0 "c" {[0 := a_x]}). vm_compute. reflexivity.
Defined.

(** ** Instances are independent *)

Lemma dom_overwrite (h : heap) (this : loc) (o o' : Selector) :
  h !! this = Some o → dom (<[this := o']> h) = dom h.
Proof.
  intros Ho. rewrite dom_insert_L.
  apply subseteq_union_1_L, singleton_subseteq_l, elem_of_dom. eauto.
Qed.

Lemma add_frame (k : kind) (this : loc) (v : string) (h : heap) :
  (∀ a, (add k this v h).1 = Return a → a = this) ∧
  dom (add k this v h).2 = dom h ∧
  (∀ l, l ≠ this → (add k this v h).2 !! l = h !! l).
Proof.
  destruct (h !! this) as [o|] eqn:Ho.
  - rewrite (add_admits _ _ _ _ _ Ho). destruct (admits o k); simpl.
    + split; [congruence|]. split; [by eapply dom_overwrite|].
      intros l Hl. by rewrite lookup_insert_ne.
    + done.
  - by rewrite add_dangling.
Qed.

Lemma combineWith_frame (this other : loc) (c : string) (h : heap) :
  (∀ a, (CSSSelector.combineWith this c other h).1 = Return a → a = this) ∧
  dom (CSSSelector.combineWith this c other h).2 = dom h ∧
  (∀ l, l ≠ this → (CSSSelector.combineWith this c other h).2 !! l = h !! l).
Proof.
  destruct (h !! this) as [o|] eqn:Ho.
  - rewrite (combineWith_run _ _ _ Ho). simpl.
    split; [congruence|]. split; [by eapply dom_overwrite|].
    intros l Hl. by rewrite lookup_insert_ne.
  - unfold CSSSelector.combineWith, bind, set. by rewrite Ho.
Qed.

(** A method returns the instance it was called on, creates and deletes no
    object, and writes to no object but that instance; a facade entry point
    adds one object and writes to no other. *)
Theorem calls_frame (k : kind) (this other : loc) (v c : string) (h : heap) :
  (∀ a, (add k this v h).1 = Return a → a = this) ∧
  dom (add k this v h).2 = dom h ∧
  (∀ l, l ≠ this → (add k this v h).2 !! l = h !! l) ∧
  (∀ a, (CSSSelector.combineWith this c other h).1 = Return a → a = this) ∧
  dom (CSSSelector.combineWith this c other h).2 = dom h ∧
  (∀ l, l ≠ this → (CSSSelector.combineWith this c other h).2 !! l = h !! l) ∧
  dom (facade k v h).2 = {[fresh (dom h)]} ∪ dom h ∧
  (∀ l, l ≠ fresh (dom h) → (facade k v h).2 !! l = h !! l).
Proof.
  destruct (add_frame k this v h) as (Ha1 & Ha2 & Ha3).
  destruct (combineWith_frame this other c h) as (Hc1 & Hc2 & Hc3).
  do 6 (split; [done|]). rewrite facade_run. simpl. split.
  - apply dom_insert_L.
  - intros l Hl. by rewrite lookup_insert_ne.
Qed.

(** [combineWith] changes nothing the guards look at: a fragment-adding call
    is accepted after it exactly when it was before it, and when it is, the
    two calls give the same store in either order. *)
Theorem combineWith_add_commute (k : kind) (this other : loc) (v c : string)
    (h : heap) (o : Selector) :
  h !! this = Some o →
  same_when_returning
    ((let! _ := CSSSelector.combineWith this c other in add k this v) h)
    ((let! _ := add k this v in CSSSelector.combineWith this c other) h).
Proof.
  intros Ho.
  rewrite (bind_Return _ _ _ _ _ (combineWith_run _ _ _ Ho c other)).
  rewrite (add_admits _ _ _ _ (set_combined (combined o ++ [(c, other)]) o))
    by apply lookup_insert_eq.
  unfold bind. rewrite (add_admits _ _ _ _ _ Ho).
  change (admits (set_combined (combined o ++ [(c, other)]) o) k) with (admits o k).
  destruct (admits o k).
  - rewrite (combineWith_run _ _ (store k v o)) by apply lookup_insert_eq.
    rewrite !insert_insert_eq.
    assert (store k v (set_combined (combined o ++ [(c, other)]) o)
            = set_combined (combined (store k v o) ++ [(c, other)]) (store k v o)) as ->
      by by destruct k.
    split; [done|]. done.
  - split; simpl; [|by intros [a Ha]]. split; by intros [a Ha].
Qed.

Lemma combineWith_add_commute_witness :
  same_when_returning
    ((let! _ := CSSSelector.combineWith 0 ">" 0 in add Class 0 "c") {[0 := a_x]})
    ((let! _ := add Class 0 "c" in CSSSelector.combineWith 0 ">" 0) {[0 := a_x]}).
Proof.
  apply (combineWith_add_commute Class 0 0 "c" ">" {[0 := a_x]} a_x).
  vm_compute. reflexivity.
Defined.

(** ** Chains that throw *)

Lemma chain_app (l1 l2 : list (kind * string)) (this : loc) (h : heap) :
  chain this (l1 ++ l2) h = (let! s := chain this l1 in chain s l2) h.
Proof.
  revert this h. induction l1 as [|[k v] l1 IH]; intros this h; [done|].
  cbn [chain app]. unfold bind at 1 2 3.
  destruct (add k this v h) as [[a|msg|] h1]; [|done..].
  by rewrite IH.
Qed.

(** When the calls of a chain return up to one that throws, the chain throws
    what that call throws, the calls after it are not made, and the instance
    keeps exactly the fragments of the calls before it. *)
Theorem chain_throws (l1 l2 : list (kind * string)) (k : kind) (v : string)
    (this a : loc) (h : heap) (o : Selector) :
  h !! this = Some o →
  (chain this l1 h).1 = Return a →
  admits (stores o l1) k = false →
  chain this (l1 ++ (k, v) :: l2) h
  = (Throw (if singleton k && present (stores o l1) k then msg_once else msg_order),
     <[this := stores o l1]> h).
Proof.
  intros Ho Hl1 Hk.
  rewrite chain_app.
  rewrite (bind_Return _ _ _ _ _ (chain_result _ _ _ _ _ Ho Hl1)).
  cbn [chain]. unfold bind.
  rewrite (add_admits _ _ _ _ (stores o l1)) by apply lookup_insert_eq.
  by rewrite Hk.
Qed.

Lemma chain_throws_witness :
  chain 0 ([(Class, "c")] ++ (Id, "y") :: [(Class, "d")]) {[0 := constructor]}
  = (Throw (if singleton Id && present (stores constructor [(Class, "c")]) Id
            then msg_once else msg_order),
     <[0 := stores constructor [(Class, "c")]]> {[0 := constructor]}).
Proof.
  apply (chain_throws [(Class, "c")] [(Class, "d")] Id "y" 0 0 {[0 := constructor]} constructor).
  - vm_compute. reflexivity.
  - vm_compute. reflexivity.
  - vm_compute. reflexivity.
Defined.

(** ** What [stringify] depends on *)

Lemma combined_loop_frame (fuel : nat) (entries : list (string * loc))
    (acc : string) (h h' : heap) :
  (∀ e, e ∈ entries →
        (CSSSelector.stringify fuel e.2 h').1 = (CSSSelector.stringify fuel e.2 h).1) →
  (forEach entries (combined_callback fuel) acc h').1
  = (forEach entries (combined_callback fuel) acc h).1.
Proof.
  revert acc. induction entries as [|[c r] rest IH]; intros acc Hsame; [done|].
  rewrite !combined_loop_cons.
  pose proof (Hsame (c, r) ltac:(by left)) as E. cbn [snd] in E. rewrite E.
  destruct (CSSSelector.stringify fuel r h).1; [|done..].
  apply IH. intros e He. apply Hsame. by right.
Qed.

Lemma stringify_frame (fuel : nat) (this : loc) (h h' : heap) :
  (∀ y, rtc (refers h) this y → h' !! y = h !! y) →
  (CSSSelector.stringify fuel this h').1 = (CSSSelector.stringify fuel this h).1.
Proof.
  revert this. induction fuel as [|fuel IH]; intros this Hsame; [done|].
  pose proof (Hsame this (rtc_refl _ _)) as Hthis.
  destruct (h !! this) as [o|] eqn:Ho.
  - rewrite (stringify_S _ _ _ _ Ho), (stringify_S _ _ _ _ Hthis).
    assert ((forEach (combined o) (combined_callback fuel) (own_fragments o) h').1
            = (forEach (combined o) (combined_callback fuel) (own_fragments o) h).1) as Hloop.
    { apply combined_loop_frame. intros [c r] Hin. apply IH.
      intros y Hy. apply Hsame. eapply rtc_l; [|exact Hy]. by exists o, c. }
    unfold bind.
    destruct (forEach (combined o) (combined_callback fuel) (own_fragments o) h')
      as [r' h1'], (forEach (combined o) (combined_callback fuel) (own_fragments o) h)
      as [r h1].
    simpl in Hloop. subst r'. by destruct r.
  - by rewrite !stringify_dangling.
Qed.

(** The outcome of [stringify()] depends only on the objects that can be
    reached from the receiver through combined entries: two stores that
    agree on them give the same outcome. *)
Theorem stringify_reachable_only (fuel : nat) (this : loc) (h h' : heap)
    (r : outcome string) :
  (∀ y, rtc (refers h) this y → h' !! y = h !! y) →
  CSSSelector.stringify fuel this h' = (r, h') ↔
  CSSSelector.stringify fuel this h = (r, h).
Proof.
  intros Hsame. pose proof (stringify_frame fuel this h h' Hsame) as E.
  destruct (CSSSelector.stringify fuel this h') as [r' h1'] eqn:E',
    (CSSSelector.stringify fuel this h) as [r0 h1] eqn:E0.
  pose proof (stringify_heap _ _ _ _ _ E'); pose proof (stringify_heap _ _ _ _ _ E0).
  simpl in E. subst. split; intros [= ->]; done.
Qed.

Lemma stringify_reachable_only_witness :
  CSSSelector.stringify 2 1 (<[0 := constructor]> a_child_b_heap)
  = (Return "b", <[0 := constructor]> a_child_b_heap) ↔
  CSSSelector.stringify 2 1 a_child_b_heap = (Return "b", a_child_b_heap).
Proof.
  apply (stringify_reachable_only 2 1 a_child_b_heap (<[0 := constructor]> a_child_b_heap)).
  intros y Hy. apply lookup_insert_ne. intros <-.
  assert (∀ a b, rtc (refers a_child_b_heap) a b → (a ≤ b)%nat) as Hle.
  { induction 1 as [|a b c Hab _ IH]; [lia|].
    apply (forward_refers a_child_b_heap a b) in Hab as [? _]; [lia|].
    vm_compute. reflexivity. }
  specialize (Hle 1 0 Hy). lia.
Defined.

(** [stringify()] returns exactly on the selectors from which no cycle of
    references can be reached. *)
Theorem stringify_returns_iff_acyclic (h : heap) (this : loc) :
  closed h → is_Some (h !! this) →
  (∃ fuel s, CSSSelector.stringify fuel this h = (Return s, h)) ↔ acyclic_from h this.
Proof.
  intros Hcl Hthis. split.
  - intros (fuel & s & Hs) x Hreach Hcycle.
    by rewrite (stringify_reaches_cycle this x h Hcl Hreach Hcycle fuel) in Hs.
  - intros Hacyc. exists (size (dom h)). by apply stringify_terminates.
Qed.

Lemma stringify_returns_iff_acyclic_witness :
  (∃ fuel s, CSSSelector.stringify fuel 0 nested_heap = (Return s, nested_heap))
  ↔ acyclic_from nested_heap 0.
Proof.
  apply (stringify_returns_iff_acyclic nested_heap 0).
  - apply forward_closed. vm_compute. reflexivity.
  - vm_compute. eauto.
Defined.

(** ** The text of a combination *)

Lemma Forall2_impl_elem {A B} (P Q : A → B → Prop) (l : list A) (k : list B) :
  Forall2 P l k → (∀ x y, x ∈ l → P x y → Q x y) → Forall2 Q l k.
Proof.
  induction 1 as [|x y l k Hxy _ IH]; intros Himpl; constructor.
  - apply Himpl; [by left|done].
  - apply IH. intros x' y' Hin. apply Himpl. by right.
Qed.

Lemma combine_text (h : heap) (left right : loc) (o : Selector)
    (combinator sl sr : string) (fuel : nat) :
  closed h → h !! left = Some o →
  ¬ rtc (refers h) right left →
  CSSSelector.stringify fuel left h = (Return sl, h) →
  CSSSelector.stringify fuel right h = (Return sr, h) →
  ∃ body,
    sl = body +:+ pseudoElementValue o ∧
    (let! s := cssSelectorBuilder.combine left combinator right in
     CSSSelector.stringify (S fuel) s) h
    = (Return (body +:+ " " +:+ combinator +:+ " " +:+ sr +:+ pseudoElementValue o),
       <[left := set_combined (combined o ++ [(combinator, right)]) o]> h).
Proof.
  intros Hcl Ho Hnot Hsl Hsr.
  destruct fuel as [|fuel]; [done|].
  pose proof Hsl as (segs & Hsegs & ->)%(stringify_Return _ _ _ _ _ Ho).
  exists (own_fragments o +:+ join segs). split; [by rewrite append_assoc|].
  unfold cssSelectorBuilder.combine.
  rewrite (bind_Return _ _ _
             (<[left := set_combined (combined o ++ [(combinator, right)]) o]> h) left).
  2:{ by rewrite (bind_Return _ _ _ _ _ (combineWith_run _ _ _ Ho _ _)). }
  set (h' := <[left := set_combined (combined o ++ [(combinator, right)]) o]> h).
  assert (∀ x s, ¬ rtc (refers h) x left →
                 CSSSelector.stringify (S fuel) x h = (Return s, h) →
                 CSSSelector.stringify (S fuel) x h' = (Return s, h')) as Hframe.
  { intros x s Hx Hs.
    pose proof (stringify_frame (S fuel) x h h') as Hsame.
    destruct (CSSSelector.stringify (S fuel) x h') as [r hx] eqn:E.
    pose proof (stringify_heap _ _ _ _ _ E); subst hx.
    rewrite Hs in Hsame. simpl in Hsame. rewrite Hsame; [done|].
    intros y Hy. apply lookup_insert_ne. by intros <-. }
  apply (stringify_Return _ _ h' (set_combined (combined o ++ [(combinator, right)]) o));
    [apply lookup_insert_eq|].
  exists (segs ++ [segment combinator sr])%list. split.
  - cbn [combined set_combined]. apply Forall2_app.
    + eapply Forall2_impl_elem; [exact Hsegs|].
      intros [c r] seg Hin (s & Hs & ->). exists s. split; [|done]. cbn [snd] in *.
      apply Hframe; [|by apply stringify_fuel_S].
      intros Hreach.
      assert (tc (refers h) left left) as Hcycle.
      { eapply tc_rtc_r; [|exact Hreach]. apply tc_once. by exists o, c. }
      by rewrite (stringify_cycle (S fuel) left h Hcl Hcycle) in Hsl.
    + constructor; [|constructor]. exists sr. split; [|done]. by apply Hframe.
  - cbn [pseudoElementValue set_combined].
    change (own_fragments (set_combined (combined o ++ [(combinator, right)]) o))
      with (own_fragments o).
    rewrite join_app. unfold segment. simpl join.
    by rewrite ?append_assoc, ?append_nil_r.
Qed.

(** When [left] and [right] both stringify and [left] cannot be reached from
    [right], [combine(left, combinator, right).stringify()] is the text of
    [left] with a space, the combinator, a space and the text of [right]
    inserted in front of the pseudo-element of [left]. *)
Theorem combine_stringify (h : heap) (left right : loc) (o : Selector)
    (combinator sl sr : string) (fuel : nat) :
  closed h → h !! left = Some o →
  ¬ rtc (refers h) right left →
  CSSSelector.stringify fuel left h = (Return sl, h) →
  CSSSelector.stringify fuel right h = (Return sr, h) →
  (∃ body,
    sl = body +:+ pseudoElementValue o ∧
    (let! s := cssSelectorBuilder.combine left combinator right in
     CSSSelector.stringify (S fuel) s) h
    = (Return (body +:+ " " +:+ combinator +:+ " " +:+ sr +:+ pseudoElementValue o),
       <[left := set_combined (combined o ++ [(combinator, right)]) o]> h)) ∧
  (pseudoElementValue o = "" →
   (let! s := cssSelectorBuilder.combine left combinator right in
    CSSSelector.stringify (S fuel) s) h
   = (Return (sl +:+ " " +:+ combinator +:+ " " +:+ sr),
      <[left := set_combined (combined o ++ [(combinator, right)]) o]> h)).
Proof.
  intros Hcl Ho Hnot Hsl Hsr.
  destruct (combine_text h left right o combinator sl sr fuel Hcl Ho Hnot Hsl Hsr)
    as (body & -> & Hrun).
  split; [by exists body|].
  intros Hpe. rewrite Hrun, Hpe. by rewrite !append_nil_r.
Qed.

Lemma forward_reachable (h : heap) (a b : loc) :
  forward h = true → rtc (refers h) a b → (a ≤ b)%nat.
Proof.
  intros Hf. induction 1 as [|a b c Hab _ IH]; [lia|].
  apply (forward_refers h a b Hf) in Hab as [? _]. lia.
Qed.

Lemma combine_stringify_witness :
  (∃ body,
    "a::x" = body +:+ pseudoElementValue (store PseudoElement "x" (store Element "a" constructor)) ∧
    (let! s := cssSelectorBuilder.combine 0 ">" 1 in CSSSelector.stringify 2 s)
      {[0 := store PseudoElement "x" (store Element "a" constructor);
        1 := store Element "b" constructor]}
    = (Return (body +:+ " " +:+ ">" +:+ " " +:+ "b"
               +:+ pseudoElementValue (store PseudoElement "x" (store Element "a" constructor))),
       <[0 := set_combined
                (combined (store PseudoElement "x" (store Element "a" constructor))
                 ++ [(">", 1)])
                (store PseudoElement "x" (store Element "a" constructor))]>
         {[0 := store PseudoElement "x" (store Element "a" constructor);
           1 := store Element "b" constructor]})) ∧
  (pseudoElementValue (store PseudoElement "x" (store Element "a" constructor)) = "" →
   (let! s := cssSelectorBuilder.combine 0 ">" 1 in CSSSelector.stringify 2 s)
     {[0 := store PseudoElement "x" (store Element "a" constructor);
       1 := store Element "b" constructor]}
   = (Return ("a::x" +:+ " " +:+ ">" +:+ " " +:+ "b"),
      <[0 := set_combined
               (combined (store PseudoElement "x" (store Element "a" constructor))
                ++ [(">", 1)])
               (store PseudoElement "x" (store Element "a" constructor))]>
        {[0 := store PseudoElement "x" (store Element "a" constructor);
          1 := store Element "b" constructor]})).
Proof.
  apply (combine_stringify
           {[0 := store PseudoElement "x" (store Element "a" constructor);
             1 := store Element "b" constructor]}
           0 1 (store PseudoElement "x" (store Element "a" constructor))
           ">" "a::x" "b" 1).
  - apply forward_closed. vm_compute. reflexivity.
  - vm_compute. reflexivity.
  - intros Hreach. apply forward_reachable in Hreach; [lia|]. vm_compute. reflexivity.
  - vm_compute. reflexivity.
  - vm_compute. reflexivity.
Defined.

(** ** Nested and chained combinations *)

Lemma length_append (a b : string) :
  String.length (a +:+ b) = (String.length a + String.length b)%nat.
Proof.
  induction a as [|ch a IH]; [done|].
  change (S (String.length (a +:+ b)) = S (String.length a + String.length b)).
  by rewrite IH.
Qed.

Lemma append_cancel_r (a b c : string) : a +:+ c = b +:+ c → a = b.
Proof.
  revert b. induction a as [|x a IH]; intros [|y b] Heq; [done| | |].
  - apply (f_equal String.length) in Heq.
    rewrite !length_append in Heq. simpl in Heq. lia.
  - apply (f_equal String.length) in Heq.
    rewrite !length_append in Heq. simpl in Heq. lia.
  - change (String x (a +:+ c) = String y (b +:+ c)) in Heq.
    injection Heq as -> Heq. f_equal. by apply IH.
Qed.

Lemma combine_run (h : heap) (left right : loc) (o : Selector) (c : string) :
  h !! left = Some o →
  cssSelectorBuilder.combine left c right h
  = (Return left, <[left := set_combined (combined o ++ [(c, right)]) o]> h).
Proof.
  intros Ho. unfold cssSelectorBuilder.combine.
  by rewrite (bind_Return _ _ _ _ _ (combineWith_run _ _ _ Ho _ _)).
Qed.

(** Overwriting an object does not change the text of a selector that
    cannot reach it. *)
Lemma stringify_unreached (fuel : nat) (x a : loc) (o' : Selector) (h : heap) (s : string) :
  ¬ rtc (refers h) x a →
  CSSSelector.stringify fuel x h = (Return s, h) →
  CSSSelector.stringify fuel x (<[a := o']> h) = (Return s, <[a := o']> h).
Proof.
  intros Hx Hs.
  pose proof (stringify_frame fuel x h (<[a := o']> h)) as Hsame.
  destruct (CSSSelector.stringify fuel x (<[a := o']> h)) as [r hx] eqn:E.
  pose proof (stringify_heap _ _ _ _ _ E); subst hx.
  rewrite Hs in Hsame. simpl in Hsame. rewrite Hsame; [done|].
  intros y Hy. apply lookup_insert_ne. by intros <-.
Qed.

(** The references of a store after one [combineWith]. *)
Lemma refers_combine (h : heap) (a b x y : loc) (o : Selector) (c : string) :
  h !! a = Some o →
  refers (<[a := set_combined (combined o ++ [(c, b)]) o]> h) x y →
  refers h x y ∨ (x = a ∧ y = b).
Proof.
  intros Ho (ox & cx & Hox & Hin).
  destruct (decide (a = x)) as [->|Hne].
  - rewrite lookup_insert_eq in Hox. injection Hox as <-. simpl in Hin.
    apply elem_of_app in Hin as [Hin|Hin].
    + left. by exists o, cx.
    + apply list_elem_of_singleton in Hin. injection Hin as _ ->. by right.
  - rewrite lookup_insert_ne in Hox by done. left. by exists ox, cx.
Qed.

Lemma reaches_combine (h : heap) (a b x y : loc) (o : Selector) (c : string) :
  h !! a = Some o →
  rtc (refers (<[a := set_combined (combined o ++ [(c, b)]) o]> h)) x y →
  rtc (refers h) x y ∨ (rtc (refers h) x a ∧ rtc (refers h) b y).
Proof.
  intros Ho. induction 1 as [x|x z y Hxz _ IH]; [by left|].
  apply (refers_combine h a b x z o c Ho) in Hxz as [Hxz|[-> ->]].
  - destruct IH as [IH|[IH1 IH2]].
    + left. by eapply rtc_l.
    + right. split; [by eapply rtc_l|done].
  - right. split; [done|]. by destruct IH as [IH|[_ IH]].
Qed.

Lemma stringify_live (fuel : nat) (this : loc) (h : heap) (s : string) :
  CSSSelector.stringify fuel this h = (Return s, h) → is_Some (h !! this).
Proof.
  destruct fuel as [|fuel]; [done|].
  destruct (h !! this) as [o|] eqn:Ho; [eauto|].
  by rewrite stringify_dangling.
Qed.

(** [combine(A, c1, combine(B, c2, C))] and [combine(combine(A, c1, B), c2, C)]
    stringify to the same text when [B] has no pseudo-element: the text of
    [A] with the segments of [B] and of [C] inserted, in this order, in
    front of the pseudo-element of [A]. *)
Theorem combine_nested_or_chained (h : heap) (A B C : loc) (oA oB : Selector)
    (c1 c2 sa sb sc : string) (fuel : nat) :
  closed h →
  h !! A = Some oA → h !! B = Some oB →
  pseudoElementValue oB = "" →
  ¬ rtc (refers h) A B → ¬ rtc (refers h) B A →
  ¬ rtc (refers h) C A → ¬ rtc (refers h) C B →
  CSSSelector.stringify fuel A h = (Return sa, h) →
  CSSSelector.stringify fuel B h = (Return sb, h) →
  CSSSelector.stringify fuel C h = (Return sc, h) →
  ∃ body,
    sa = body +:+ pseudoElementValue oA ∧
    ((let! inner := cssSelectorBuilder.combine B c2 C in
      let! outer := cssSelectorBuilder.combine A c1 inner in
      CSSSelector.stringify (S (S fuel)) outer) h).1
    = Return (body +:+ " " +:+ c1 +:+ " " +:+ sb +:+ " " +:+ c2 +:+ " " +:+ sc
              +:+ pseudoElementValue oA) ∧
    ((let! ab := cssSelectorBuilder.combine A c1 B in
      let! abc := cssSelectorBuilder.combine ab c2 C in
      CSSSelector.stringify (S (S fuel)) abc) h).1
    = Return (body +:+ " " +:+ c1 +:+ " " +:+ sb +:+ " " +:+ c2 +:+ " " +:+ sc
              +:+ pseudoElementValue oA).
Proof.
  intros Hcl HA HB HpeB HAB HBA HCA HCB Hsa Hsb Hsc.
  assert (A ≠ B) as Hne by (intros ->; by apply HAB).
  pose proof (stringify_live _ _ _ _ Hsc) as HC.
  (* the right-nested combination *)
  destruct (combine_text h B C oB c2 sb sc fuel Hcl HB HCB Hsb Hsc)
    as (bodyB & HbodyB & Hinner).
  rewrite HpeB, append_nil_r in HbodyB. subst bodyB.
  rewrite HpeB, append_nil_r in Hinner.
  rewrite (bind_Return _ _ _ _ _ (combine_run _ _ _ _ c2 HB)) in Hinner.
  set (h1 := <[B := set_combined (combined oB ++ [(c2, C)]) oB]> h) in *.
  assert (closed h1) as Hcl1 by by apply closed_combine.
  assert (h1 !! A = Some oA) as HA1 by (unfold h1; by rewrite lookup_insert_ne).
  assert (¬ rtc (refers h1) B A) as HBA1.
  { intros [H|[_ H]]%(reaches_combine h B C B A oB c2 HB); [by apply HBA|by apply HCA]. }
  assert (CSSSelector.stringify (S fuel) A h1 = (Return sa, h1)) as Hsa1
    by (apply stringify_unreached; [done|by apply stringify_fuel_S]).
  destruct (combine_text h1 A B oA c1 sa _ (S fuel) Hcl1 HA1 HBA1 Hsa1 Hinner)
    as (body & Hbody & Houter).
  exists body. split; [done|]. split.
  - unfold bind at 1. rewrite (combine_run _ _ _ _ c2 HB). fold h1.
    rewrite Houter. simpl. by rewrite !append_assoc.
  - (* the chained combination *)
    destruct (combine_text h A B oA c1 sa sb fuel Hcl HA HBA Hsa Hsb)
      as (body' & Hbody' & Hab).
    assert (body' = body) as -> by (apply (append_cancel_r _ _ (pseudoElementValue oA)); congruence).
    rewrite (bind_Return _ _ _ _ _ (combine_run _ _ _ _ c1 HA)) in Hab.
    set (h2 := <[A := set_combined (combined oA ++ [(c1, B)]) oA]> h) in *.
    assert (closed h2) as Hcl2 by (apply closed_combine; eauto).
    assert (¬ rtc (refers h2) C A) as HCA2.
    { intros [H|[H _]]%(reaches_combine h A B C A oA c1 HA); by apply HCA. }
    assert (CSSSelector.stringify (S fuel) C h2 = (Return sc, h2)) as Hsc2
      by (apply stringify_unreached; [done|by apply stringify_fuel_S]).
    destruct (combine_text h2 A C _ c2 _ sc (S fuel) Hcl2
                (lookup_insert_eq _ _ _) HCA2 Hab Hsc2)
      as (body2 & Hbody2 & Habc).
    cbn [pseudoElementValue set_combined] in Hbody2, Habc.
    assert (body2 = body +:+ " " +:+ c1 +:+ " " +:+ sb) as ->.
    { apply (append_cancel_r _ _ (pseudoElementValue oA)).
      rewrite <- Hbody2. by rewrite !append_assoc. }
    unfold bind at 1. rewrite (combine_run _ _ _ _ c1 HA). fold h2.
    rewrite Habc. simpl. by rewrite !append_assoc.
Qed.

(** A selector without combined entries reaches only itself. *)
Lemma leaf_reaches (h : heap) (x y : loc) (o : Selector) :
  h !! x = Some o → combined o = [] → rtc (refers h) x y → y = x.
Proof.
  intros Ho Hleaf Hreach. destruct Hreach as [|x z y (o' & c & Ho' & Hin) _]; [done|].
  rewrite Ho in Ho'. injection Ho' as <-. rewrite Hleaf in Hin.
  by apply elem_of_nil in Hin.
Qed.

Lemma combine_nested_or_chained_witness :
  ∃ body,
    "a" = body +:+ pseudoElementValue (store Element "a" constructor) ∧
    ((let! inner := cssSelectorBuilder.combine 1 "~" 2 in
      let! outer := cssSelectorBuilder.combine 0 "+" inner in
      CSSSelector.stringify 3 outer)
       {[0 := store Element "a" constructor; 1 := store Element "b" constructor;
         2 := store Element "c" constructor]}).1
    = Return (body +:+ " " +:+ "+" +:+ " " +:+ "b" +:+ " " +:+ "~" +:+ " " +:+ "c"
              +:+ pseudoElementValue (store Element "a" constructor)) ∧
    ((let! ab := cssSelectorBuilder.combine 0 "+" 1 in
      let! abc := cssSelectorBuilder.combine ab "~" 2 in
      CSSSelector.stringify 3 abc)
       {[0 := store Element "a" constructor; 1 := store Element "b" constructor;
         2 := store Element "c" constructor]}).1
    = Return (body +:+ " " +:+ "+" +:+ " " +:+ "b" +:+ " " +:+ "~" +:+ " " +:+ "c"
              +:+ pseudoElementValue (store Element "a" constructor)).
Proof.
  apply (combine_nested_or_chained
           {[0 := store Element "a" constructor; 1 := store Element "b" constructor;
             2 := store Element "c" constructor]}
           0 1 2 (store Element "a" constructor) (store Element "b" constructor)
           "+" "~" "a" "b" "c" 1).
  - apply forward_closed. vm_compute. reflexivity.
  - vm_compute. reflexivity.
  - vm_compute. reflexivity.
  - reflexivity.
  - intros H. by apply (leaf_reaches _ 0 1 (store Element "a" constructor)) in H.
  - intros H. by apply (leaf_reaches _ 1 0 (store Element "b" constructor)) in H.
  - intros H. by apply (leaf_reaches _ 2 0 (store Element "c" constructor)) in H.
  - intros H. by apply (leaf_reaches _ 2 1 (store Element "c" constructor)) in H.
  - vm_compute. reflexivity.
  - vm_compute. reflexivity.
  - vm_compute. reflexivity.
Defined.

(** With a pseudo-element on the middle selector the two shapes differ: in
    the nested one it comes after the text of the last selector. *)
Example combine_nested_pseudoElement :
  ((let! inner := cssSelectorBuilder.combine 1 "~" 2 in
    let! outer := cssSelectorBuilder.combine 0 "+" inner in
    CSSSelector.stringify 3 outer)
     {[0 := store Element "a" constructor;
       1 := store PseudoElement "x" (store Element "b" constructor);
       2 := store Element "c" constructor]}).1 = Return "a + b ~ c::x" ∧
  ((let! ab := cssSelectorBuilder.combine 0 "+" 1 in
    let! abc := cssSelectorBuilder.combine ab "~" 2 in
    CSSSelector.stringify 3 abc)
     {[0 := store Element "a" constructor;
       1 := store PseudoElement "x" (store Element "b" constructor);
       2 := store Element "c" constructor]}).1 = Return "a + b::x ~ c".
Proof. split; vm_compute; reflexivity. Qed.

(** ** Rejection is final *)

(** A fragment-adding method that an instance rejects is rejected on it
    for good: after any further fragment-adding call or [combineWith],
    returning or throwing, the instance still does not admit it. *)
Theorem rejection_permanent (k k' : kind) (this other : loc) (v' c : string)
    (h : heap) (o : Selector) :
  h !! this = Some o → admits o k = false →
  (∃ o', (add k' this v' h).2 !! this = Some o' ∧ admits o' k = false) ∧
  (∃ o', (CSSSelector.combineWith this c other h).2 !! this = Some o' ∧
         admits o' k = false).
Proof.
  intros Ho Hk. split.
  - rewrite (add_admits _ _ _ _ _ Ho).
    destruct (admits o k') eqn:Hk'; [|by exists o].
    exists (store k' v' o). split; [apply lookup_insert_eq|].
    by rewrite (admits_store o k' k v' "" Hk'), Hk.
  - rewrite (combineWith_run _ _ _ Ho).
    eexists. split; [apply lookup_insert_eq|]. exact Hk.
Qed.

Lemma rejection_permanent_witness :
  (∃ o', (add Class 0 "c" {[0 := a_x]}).2 !! 0 = Some o' ∧ admits o' Element = false) ∧
  (∃ o', (CSSSelector.combineWith 0 ">" 0 {[0 := a_x]}).2 !! 0 = Some o' ∧
         admits o' Element = false).
Proof.
  apply (rejection_permanent Element Class 0 0 "c" ">" {[0 := a_x]} a_x).
  - vm_compute. reflexivity.
  - vm_compute. reflexivity.
Defined.

Lemma fluent_grammar_witness :
  (∃ a, (fluent Element "" [(Element, "a"); (Class, "b"); (Id, "c")] ∅).1 = Return a)
  ↔ StronglySorted follows [(Element, ""); (Element, "a"); (Class, "b"); (Id, "c")].
Proof. apply (fluent_grammar Element "" [(Element, "a"); (Class, "b"); (Id, "c")] ∅). Defined.

(** ** A fragment added after the combination *)



